(** * Image filtering lab (lab0/lab.py): a shallow embedding and its properties

    The Python module works on images represented as dictionaries
    [{'height': h, 'width': w, 'pixels': [...]}].  Dictionaries and lists are
    mutable heap objects in Python, and two of the functions
    ([set_pixel], [round_and_clip_image]) update a list in place, so the
    embedding threads an explicit store of objects through every function and
    represents an image by the address of its dictionary.

    Pixel values are Python numbers: unbounded integers or IEEE-754 binary64
    floats.  Floats are modelled with the executable specification
    [SpecFloat] of the standard library (precision 53, maximal exponent
    1024). *)

From Stdlib Require Import ZArith Lia Bool QArith Qabs.
From Stdlib Require Import Floats.SpecFloat.
From stdpp Require Import base list.

Local Open Scope Z_scope.

(** ** Python numbers *)

Module PyNum.

Definition prec : Z := 53.
Definition emax : Z := 1024.

(** A Python number: an [int] or a [float]. *)
Inductive num : Type :=
| PInt (z : Z)
| PFloat (f : spec_float).

(** The exceptions the modelled code can raise. *)
Inductive exn : Type :=
| IndexError
| OverflowError
| ValueError
| ZeroDivisionError
| TypeError.

(** Outcome of evaluating a Python expression. *)
Inductive result (A : Type) : Type :=
| Ok (a : A)
| Raise (e : exn).
Arguments Ok {A} a.
Arguments Raise {A} e.

Definition rbind {A B} (r : result A) (k : A -> result B) : result B :=
  match r with
  | Ok a => k a
  | Raise e => Raise e
  end.

Definition is_infinity (f : spec_float) : bool :=
  match f with
  | S754_infinity _ => true
  | _ => false
  end.

Definition is_finite (f : spec_float) : bool :=
  match f with
  | S754_zero _ | S754_finite _ _ _ => true
  | _ => false
  end.

(** [float(z)]: the nearest binary64 (ties to even); an integer too large
    for a float raises [OverflowError]. *)
Definition float_of_int (z : Z) : result spec_float :=
  let f := binary_normalize prec emax z 0 false in
  if is_infinity f then Raise OverflowError else Ok f.

(** Coercion of an operand of a mixed int/float operation. *)
Definition to_float (a : num) : result spec_float :=
  match a with
  | PInt z => float_of_int z
  | PFloat f => Ok f
  end.

(** Binary arithmetic: exact on two ints, otherwise both operands are
    coerced to float and the IEEE operation is applied.  Float [+], [-] and
    [*] never raise in Python (they produce inf or nan). *)
Definition arith (iop : Z -> Z -> Z)
           (fop : spec_float -> spec_float -> spec_float)
           (a b : num) : result num :=
  match a, b with
  | PInt x, PInt y => Ok (PInt (iop x y))
  | _, _ =>
      rbind (to_float a) (fun x =>
      rbind (to_float b) (fun y =>
      Ok (PFloat (fop x y))))
  end.

Definition py_add : num -> num -> result num := arith Z.add (SFadd prec emax).
Definition py_sub : num -> num -> result num := arith Z.sub (SFsub prec emax).
Definition py_mul : num -> num -> result num := arith Z.mul (SFmul prec emax).

(** [a / b] on two ints (true division): the correctly rounded quotient.
    [SFdiv] rounds the exact quotient of the two integer mantissas. *)
Definition int_as_float (z : Z) : spec_float :=
  match z with
  | Z0 => S754_zero false
  | Zpos p => S754_finite false p 0
  | Zneg p => S754_finite true p 0
  end.

Definition py_truediv_int (a b : Z) : result num :=
  if b =? 0 then Raise ZeroDivisionError
  else
    let q := SFdiv prec emax (int_as_float a) (int_as_float b) in
    if is_infinity q then Raise OverflowError else Ok (PFloat q).

(** [x ** 2].  On an int this is the exact square.  On a float CPython
    calls the C library's [pow] and raises [OverflowError] when a finite
    argument gives an infinite result; the value is modelled by the
    correctly rounded product. *)
Definition py_square (a : num) : result num :=
  match a with
  | PInt z => Ok (PInt (z * z))
  | PFloat f =>
      let r := SFmul prec emax f f in
      if is_finite f && is_infinity r then Raise OverflowError
      else Ok (PFloat r)
  end.

(** [x ** (1/2)], modelled by the correctly rounded square root.  A
    negative base would give a Python [complex], on which the [round] that
    follows raises [TypeError]; the model raises it here. *)
Definition py_pow_half (a : num) : result num :=
  rbind (to_float a) (fun f =>
    match f with
    | S754_finite true _ _ | S754_infinity true => Raise TypeError
    | S754_zero _ => Ok (PFloat (S754_zero false))
    | _ => Ok (PFloat (SFsqrt prec emax f))
    end).

(** Rounding [m * 2^e] (m positive) to the nearest integer, ties to even. *)
Definition round_half_even_pos (m : positive) (e : Z) : Z :=
  match e with
  | Zneg p =>
      let d := Zpos (2 ^ p) in
      let q := Zpos m / d in
      let r := Zpos m mod d in
      match 2 * r ?= d with
      | Lt => q
      | Gt => q + 1
      | Eq => if Z.even q then q else q + 1
      end
  | _ => Zpos m * 2 ^ e
  end.

(** The builtin [round(x)] with one argument: the identity on ints; on
    floats round-half-to-even to an int, [ValueError] on nan and
    [OverflowError] on an infinity. *)
Definition py_round (a : num) : result Z :=
  match a with
  | PInt z => Ok z
  | PFloat (S754_zero _) => Ok 0
  | PFloat (S754_finite s m e) => Ok (cond_Zopp s (round_half_even_pos m e))
  | PFloat (S754_infinity _) => Raise OverflowError
  | PFloat S754_nan => Raise ValueError
  end.

(** [l[i]] on a list: a negative index counts from the end; an index
    outside [-len, len) raises [IndexError]. *)
Definition py_getitem {A} (l : list A) (i : Z) : result A :=
  let n := Z.of_nat (length l) in
  let j := if i <? 0 then i + n else i in
  if (0 <=? j) && (j <? n) then
    match l !! Z.to_nat j with
    | Some v => Ok v
    | None => Raise IndexError
    end
  else Raise IndexError.

(** [range(n)] *)
Definition range (n : Z) : list Z := map Z.of_nat (seq 0 (Z.to_nat n)).

(** The exact value of a finite float, as a rational. *)
Definition float_value (f : spec_float) : option Q :=
  match f with
  | S754_zero _ => Some 0%Q
  | S754_finite s m (Zneg p) => Some (Qmake (cond_Zopp s (Zpos m)) (2 ^ p))
  | S754_finite s m e => Some (inject_Z (cond_Zopp s (Zpos m) * 2 ^ e))
  | _ => None
  end.

Definition num_value (a : num) : option Q :=
  match a with
  | PInt z => Some (inject_Z z)
  | PFloat f => float_value f
  end.

End PyNum.
Export PyNum.

(** ** The object store *)

Module Store.

Abbreviation loc := nat (only parsing).

(** An image dictionary: the values bound to its three keys.  The value of
    ['pixels'] is a reference to a list object. *)
Record image_dict : Type := mk_image {
  height : Z;
  width : Z;
  pixels : loc
}.

Inductive obj : Type :=
| ODict (d : image_dict)
| OList (l : list num).

(** The store maps addresses to objects; a new object takes the next
    address. *)
Abbreviation heap := (list obj) (only parsing).

(** A computation may change the store and may raise; the store changes
    made before an exception persist. *)
Definition M (A : Type) : Type := heap -> result A * heap.

Definition ret {A} (a : A) : M A := fun h => (Ok a, h).

Definition bind {A B} (m : M A) (k : A -> M B) : M B :=
  fun h =>
    match m h with
    | (Ok a, h') => k a h'
    | (Raise e, h') => (Raise e, h')
    end.

Definition lift {A} (r : result A) : M A := fun h => (r, h).

Definition alloc (o : obj) : M loc := fun h => (Ok (length h), h ++ [o]).

Definition read_dict (l : loc) : M image_dict :=
  fun h =>
    match h !! l with
    | Some (ODict d) => (Ok d, h)
    | _ => (Raise TypeError, h)
    end.

Definition read_list (l : loc) : M (list num) :=
  fun h =>
    match h !! l with
    | Some (OList vs) => (Ok vs, h)
    | _ => (Raise TypeError, h)
    end.

Definition write (l : loc) (o : obj) : M unit :=
  fun h => (Ok tt, <[l := o]> h).

End Store.
Export Store.

Declare Scope py_scope.
Delimit Scope py_scope with py.
Notation "'let!' x ':=' m 'in' k" := (bind m (fun x => k))
  (at level 10, x name, m at level 100, k at level 200) : py_scope.
Notation "'exec' m 'in' k" := (bind m (fun _ => k))
  (at level 10, m at level 100, k at level 200) : py_scope.
Local Open Scope py_scope.

(** ** Statements and expressions on objects *)

(** [for x in xs: body x] *)
Fixpoint for_each {A} (xs : list A) (body : A -> M unit) : M unit :=
  match xs with
  | [] => ret tt
  | x :: xs' => exec body x in for_each xs' body
  end.

(** A [for] loop that updates one local variable [acc]. *)
Fixpoint for_acc {A B} (xs : list A) (body : A -> B -> M B) (acc : B) : M B :=
  match xs with
  | [] => ret acc
  | x :: xs' => let! acc' := body x acc in for_acc xs' body acc'
  end.

(** A list comprehension over an already evaluated sequence. *)
Fixpoint comprehension {A B} (f : A -> result B) (xs : list A) : result (list B) :=
  match xs with
  | [] => Ok []
  | x :: xs' =>
      rbind (f x) (fun y =>
      rbind (comprehension f xs') (fun ys => Ok (y :: ys)))
  end.

(** [image["height"]], [image["width"]], [image["pixels"]] *)
Definition getitem_height (image : loc) : M Z :=
  let! d := read_dict image in ret (height d).
Definition getitem_width (image : loc) : M Z :=
  let! d := read_dict image in ret (width d).
Definition getitem_pixels (image : loc) : M loc :=
  let! d := read_dict image in ret (pixels d).

(** [image["pixels"] = p] *)
Definition setitem_pixels (image : loc) (p : loc) : M unit :=
  let! d := read_dict image in
  write image (ODict (mk_image (height d) (width d) p)).

(** [lst[i]] on a list object *)
Definition list_getitem (lst : loc) (i : Z) : M num :=
  let! vs := read_list lst in lift (py_getitem vs i).

(** [lst[i] = v] on a list object *)
Definition list_setitem (lst : loc) (i : Z) (v : num) : M unit :=
  let! vs := read_list lst in
  let n := Z.of_nat (length vs) in
  let j := if i <? 0 then i + n else i in
  if (0 <=? j) && (j <? n) then write lst (OList (<[Z.to_nat j := v]> vs))
  else lift (Raise IndexError).

(** [lst.append(v)] *)
Definition list_append (lst : loc) (v : num) : M unit :=
  let! vs := read_list lst in write lst (OList (vs ++ [v])).

(** [{'height': h, 'width': w, 'pixels': []}] *)
Definition new_image (h w : Z) : M loc :=
  let! p := alloc (OList []) in
  alloc (ODict (mk_image h w p)).

(** ** The functions of lab.py *)

Definition in_bound (dim s : Z) : Z :=
  if s <=? -1 then 0
  else if s >=? dim then dim - 1
  else s.

Definition get_pixel (image : loc) (x y : Z) : M num :=
  let! h := getitem_height image in
  let x := in_bound h x in
  let! w := getitem_width image in
  let y := in_bound w y in
  let! p := getitem_pixels image in
  let! w' := getitem_width image in
  list_getitem p (x * w' + y).

Definition set_pixel (image : loc) (c : num) : M unit :=
  let! p := getitem_pixels image in
  list_append p c.

Definition apply_per_pixel (image : loc) (func : num -> result num) : M loc :=
  let! h := getitem_height image in
  let! w := getitem_width image in
  let! result := new_image h w in
  let! hh := getitem_height image in
  exec for_each (range hh) (fun x =>
    let! ww := getitem_width image in
    for_each (range ww) (fun y =>
      let! color := get_pixel image x y in
      let! newcolor := lift (func color) in
      set_pixel result newcolor)) in
  ret result.

Definition inverted (image : loc) : M loc :=
  apply_per_pixel image (fun c => py_sub (PInt 255) c).

(** [int(len(kernel) ** (1/2))] is the integer square root for every length
    a list can have, and [int((kernel_size - 1)/2)] truncates towards zero. *)
Definition correlate (image : loc) (kernel : list num) : M loc :=
  let! h := getitem_height image in
  let! w := getitem_width image in
  let! result := new_image h w in
  let kernel_size := Z.sqrt (Z.of_nat (length kernel)) in
  let num_layers := Z.quot (kernel_size - 1) 2 in
  let! hh := getitem_height image in
  exec for_each (range hh) (fun x =>
    let! ww := getitem_width image in
    for_each (range ww) (fun y =>
      let! newpixel :=
        for_acc (range kernel_size) (fun h newpixel =>
          for_acc (range kernel_size) (fun w newpixel =>
            let! k := lift (py_getitem kernel (h * kernel_size + w)) in
            let! c := get_pixel image (x - num_layers + h) (y - num_layers + w) in
            let! t := lift (py_mul k c) in
            lift (py_add newpixel t)) newpixel)
          (PFloat (S754_zero false)) in
      set_pixel result newpixel)) in
  ret result.

(** The loop runs over the positions of the list as it is when the loop
    starts; the assignments in the body never change its length. *)
Definition round_and_clip_image (image : loc) : M loc :=
  let! p := getitem_pixels image in
  let! vs := read_list p in
  exec for_each (range (Z.of_nat (length vs))) (fun idx =>
    let! pixel := list_getitem p idx in
    let! r := lift (py_round pixel) in
    if r <? 0 then
      let! q := getitem_pixels image in list_setitem q idx (PInt 0)
    else
      let! r := lift (py_round pixel) in
      if r >? 255 then
        let! q := getitem_pixels image in list_setitem q idx (PInt 255)
      else
        let! q := getitem_pixels image in
        let! r := lift (py_round pixel) in
        list_setitem q idx (PInt r)) in
  ret image.

(** [[1/n**2] * n**2] *)
Definition get_blur_kernel (n : Z) : result (list num) :=
  rbind (py_truediv_int 1 (n * n)) (fun k =>
  Ok (repeat k (Z.to_nat (n * n)))).

Definition blurred (image : loc) (n : Z) (correct : bool) : M loc :=
  let! kernel := lift (get_blur_kernel n) in
  let! correlated := correlate image kernel in
  if correct then round_and_clip_image correlated
  else ret correlated.

Definition sharpened (image : loc) (n : Z) : M loc :=
  let! h := getitem_height image in
  let! w := getitem_width image in
  let! result := new_image h w in
  let! xp := getitem_pixels image in
  let! b := blurred image n false in
  let! yp := getitem_pixels b in
  let! xs := read_list xp in
  let! ys := read_list yp in
  let! vs := lift (comprehension
                     (fun xy => rbind (py_mul (PInt 2) (fst xy)) (fun t =>
                                py_sub t (snd xy)))
                     (zip xs ys)) in
  let! new := alloc (OList vs) in
  exec setitem_pixels result new in
  round_and_clip_image result.

Definition Kx : list num := map PInt [-1; 0; 1; -2; 0; 2; -1; 0; 1].
Definition Ky : list num := map PInt [-1; -2; -1; 0; 0; 0; 1; 2; 1].

Definition edges (i : loc) : M loc :=
  let! d := read_dict i in
  let! Oxy := alloc (ODict d) in
  let! Ox := correlate i Kx in
  let! Oy := correlate i Ky in
  let! xp := getitem_pixels Ox in
  let! yp := getitem_pixels Oy in
  let! xs := read_list xp in
  let! ys := read_list yp in
  let! vs := lift (comprehension
                     (fun xy => rbind (py_square (fst xy)) (fun a =>
                                rbind (py_square (snd xy)) (fun b =>
                                rbind (py_add a b) py_pow_half)))
                     (zip xs ys)) in
  let! new := alloc (OList vs) in
  exec setitem_pixels Oxy new in
  round_and_clip_image Oxy.

(** ** Specification-level definitions *)

(** An image as a value: what the dictionary at [i] and its pixel list
    hold. *)
Definition image_at (h : heap) (i : loc) (hh ww : Z) (px : list num) : Prop :=
  exists p, h !! i = Some (ODict (mk_image hh ww p)) /\ h !! p = Some (OList px).

(** The data-model invariant of an image. *)
Definition well_formed (hh ww : Z) (px : list num) : Prop :=
  0 <= hh /\ 0 <= ww /\ Z.of_nat (length px) = hh * ww.

(** BoundaryResolver, as the specification words it. *)
Definition resolve (dimensionSize coordinate : Z) : Z :=
  if coordinate <? 0 then 0
  else if dimensionSize <=? coordinate then dimensionSize - 1
  else coordinate.

(** PixelAccessor on an image value. *)
Definition getPixel (hh ww : Z) (px : list num) (row col : Z) : result num :=
  py_getitem px (resolve hh row * ww + resolve ww col).

(** The values a loop has produced when it stops, and how it stopped. *)
Fixpoint collect {A B} (f : A -> result B) (xs : list A) : list B * result unit :=
  match xs with
  | [] => ([], Ok tt)
  | x :: xs' =>
      match f x with
      | Ok y => let (ys, r) := collect f xs' in (y :: ys, r)
      | Raise e => ([], Raise e)
      end
  end.

(** ** Derived functions and specification predicates *)

(** A [for] loop over a local accumulator whose body does not touch the
    store is a fold in the [result] monad. *)
Fixpoint rfold {A B} (g : A -> B -> result B) (xs : list A) (acc : B) : result B :=
  match xs with
  | [] => Ok acc
  | x :: xs' => rbind (g x acc) (rfold g xs')
  end.

(** The status of a loop, given how the collection of its values ended. *)
Definition status {A} (r : result unit) (a : A) : result A :=
  match r with
  | Ok _ => Ok a
  | Raise e => Raise e
  end.

(** The store after [result = {..., 'pixels': []}] has been allocated on top
    of [h] and the values [vs] have been appended: the new list sits at
    address [length h] and the new dictionary right after it. *)
Definition out_store (h : heap) (hh ww : Z) (vs : list num) : heap :=
  h ++ [OList vs; ODict (mk_image hh ww (length h))].

(** What the two inner loops of [correlate] compute for the output
    coordinate [(x, y)], as a function of the image value. *)
Definition correlate_pixel (hh ww : Z) (px kernel : list num) (x y : Z) : result num :=
  let kernel_size := Z.sqrt (Z.of_nat (length kernel)) in
  let num_layers := Z.quot (kernel_size - 1) 2 in
  rfold (fun h newpixel =>
    rfold (fun w newpixel =>
      rbind (py_getitem kernel (h * kernel_size + w)) (fun k =>
      rbind (py_getitem px (in_bound hh (x - num_layers + h) * ww
                            + in_bound ww (y - num_layers + w))) (fun c =>
      rbind (py_mul k c) (fun t =>
      py_add newpixel t))))
      (range kernel_size) newpixel)
    (range kernel_size) (PFloat (S754_zero false)).

(** The weighted sum of the specification at output coordinate [(x, y)]
    for an [n] by [n] kernel: the terms are added in row-major order of the
    kernel, starting from the float zero, with Python's arithmetic. *)
Definition weighted_sum (hh ww : Z) (px kernel : list num) (n x y : Z) : result num :=
  let half := (n - 1) / 2 in
  rfold (fun kk sum =>
           rbind (py_getitem kernel (fst kk * n + snd kk)) (fun k =>
           rbind (getPixel hh ww px (x - half + fst kk) (y - half + snd kk)) (fun c =>
           rbind (py_mul k c) (fun t =>
           py_add sum t))))
        (list_prod (range n) (range n)) (PFloat (S754_zero false)).

(** The integers that occur convert to float: the weights, the pixels and
    the products of an integer weight with an integer pixel. *)
Definition float_ok (z : Z) : bool :=
  negb (is_infinity (binary_normalize prec emax z 0 false)).

Definition num_ok (a : num) : bool :=
  match a with
  | PInt z => float_ok z
  | PFloat _ => true
  end.

Definition product_ok (k c : num) : bool :=
  match k, c with
  | PInt a, PInt b => float_ok (a * b)
  | _, _ => true
  end.

Definition in_float_range (kernel px : list num) : bool :=
  forallb num_ok kernel && forallb num_ok px
  && forallb (fun k => forallb (product_ok k) px) kernel.

(** What one iteration of the loop of [round_and_clip_image] stores for the
    pixel value [v]. *)
Definition quantize (v : num) : result num :=
  rbind (py_round v) (fun r =>
    Ok (PInt (if r <? 0 then 0 else if r >? 255 then 255 else r))).

(** The body of the loop of [round_and_clip_image], for the image [image]
    whose pixel list [p] is being traversed. *)
Definition clip_body (image p : loc) (idx : Z) : M unit :=
  let! pixel := list_getitem p idx in
  let! r := lift (py_round pixel) in
  if r <? 0 then
    let! q := getitem_pixels image in list_setitem q idx (PInt 0)
  else
    let! r := lift (py_round pixel) in
    if r >? 255 then
      let! q := getitem_pixels image in list_setitem q idx (PInt 255)
    else
      let! q := getitem_pixels image in
      let! r := lift (py_round pixel) in
      list_setitem q idx (PInt r).

(** Round-half-to-even and clamping, as the specification words them. *)
Definition nearest_even (q : Q) (z : Z) : Prop :=
  (Qabs (q - inject_Z z) <= 1 # 2)%Q /\
  ((Qabs (q - inject_Z z) == 1 # 2)%Q -> Z.even z = true).

Definition clamp (z : Z) : Z :=
  if z <? 0 then 0 else if 255 <? z then 255 else z.

(** A pixel of an image entering or leaving the filters: an integer in
    [0, 255]. *)
Definition valid_pixel (v : num) : Prop :=
  exists z, v = PInt z /\ 0 <= z <= 255.

(** What a filter guarantees about the store [h'] it leaves and the image
    it returns, started in [h] on an image of dimensions [hh], [ww]. *)
Definition filter_outcome (h : heap) (hh ww : Z) (r : result loc) (h' : heap) : Prop :=
  h `prefix_of` h' /\
  (forall l, r = Ok l ->
     exists px', image_at h' l hh ww px' /\ Forall valid_pixel px').

(** The public filters; [blurred] is called with its default
    [correct = True]. *)
Inductive filter : Type :=
| Inverted
| Blurred (n : Z)
| Sharpened (n : Z)
| Edges.

Definition run_filter (F : filter) (image : loc) : M loc :=
  match F with
  | Inverted => inverted image
  | Blurred n => blurred image n true
  | Sharpened n => sharpened image n
  | Edges => edges image
  end.

(** The float 1.0, the only weight of the 1 by 1 blur kernel. *)
Definition float_one : spec_float := S754_finite false 4503599627370496 (-52).

(** The value [correlate] stores for a pixel [c] under the kernel of
    [get_blur_kernel 1], and the check that quantizing it gives the pixel
    back. *)
Definition blur_1 (c : num) : result num :=
  rbind (py_mul (PFloat float_one) c) (fun t => py_add (PFloat (S754_zero false)) t).

Definition blur_1_check (z : Z) : bool :=
  match rbind (blur_1 (PInt z)) quantize with
  | Ok (PInt r) => r =? z
  | _ => false
  end.

(** The 11 by 11 image with 255 at row 5, column 5 and 0 elsewhere, stored
    at address 1 with its pixel list at address 0. *)
Definition centered_pixel : list num :=
  map PInt (repeat 0 60 ++ [255] ++ repeat 0 60).

Definition centered : list obj :=
  [OList centered_pixel; ODict (mk_image 11 11 0%nat)].

(** The 11 by 11 image that holds [v] on the square of the pixels at most
    [half] rows and columns away from the centre (5, 5), and 0 elsewhere. *)
Definition centered_block (half v : Z) : list num :=
  map (fun xy => PInt (if (Z.abs (fst xy - 5) <=? half) && (Z.abs (snd xy - 5) <=? half)
                       then v else 0))
      (list_prod (range 11) (range 11)).

(** ** Pure reading of the filters *)

(** A comprehension, or a loop that fills a list, taken as a whole: the
    list of values, or the first exception. *)
Definition gather {A B} (f : A -> result B) (xs : list A) : result (list B) :=
  status (snd (collect f xs)) (fst (collect f xs)).

(** The pixel list [correlate] builds, as a function of the image value. *)
Definition correlate_value (hh ww : Z) (px kernel : list num) : result (list num) :=
  gather (fun xy => correlate_pixel hh ww px kernel (fst xy) (snd xy))
         (list_prod (range hh) (range ww)).

(** [2*x - y], the element of the comprehension of [sharpened]. *)
Definition unsharp (xy : num * num) : result num :=
  rbind (py_mul (PInt 2) (fst xy)) (fun t => py_sub t (snd xy)).

(** [(x**2 + y**2)**(1/2)], the element of the comprehension of [edges]. *)
Definition magnitude (xy : num * num) : result num :=
  rbind (py_square (fst xy)) (fun a =>
  rbind (py_square (snd xy)) (fun b =>
  rbind (py_add a b) py_pow_half)).

(** The pixel list of the image a filter returns, or the exception it
    raises, as a function of the input image value. *)
Definition filter_value (F : filter) (hh ww : Z) (px : list num) : result (list num) :=
  match F with
  | Inverted =>
      gather (fun xy => rbind (py_getitem px (in_bound hh (fst xy) * ww
                                              + in_bound ww (snd xy)))
                              (fun c => py_sub (PInt 255) c))
             (list_prod (range hh) (range ww))
  | Blurred n =>
      rbind (get_blur_kernel n) (fun kernel =>
      rbind (correlate_value hh ww px kernel) (gather quantize))
  | Sharpened n =>
      rbind (get_blur_kernel n) (fun kernel =>
      rbind (correlate_value hh ww px kernel) (fun ys =>
      rbind (gather unsharp (zip px ys)) (gather quantize)))
  | Edges =>
      rbind (correlate_value hh ww px Kx) (fun xs =>
      rbind (correlate_value hh ww px Ky) (fun ys =>
      rbind (gather magnitude (zip xs ys)) (gather quantize)))
  end.

(** The address of the dictionary a filter returns when started in [h]:
    [edges] allocates its copy first, the others a list first. *)
Definition result_loc (F : filter) (h : heap) : loc :=
  match F with
  | Edges => length h
  | _ => S (length h)
  end.

Definition is_float (v : num) : Prop := exists f, v = PFloat f.

Definition is_int (v : num) : Prop := exists z, v = PInt z.

(** [255 - v] on an integer pixel. *)
Definition invert_int (v : num) : num :=
  match v with
  | PInt z => PInt (255 - z)
  | PFloat _ => v
  end.

(** A weight that is an int or a float other than nan and the infinities. *)
Definition finite_num (v : num) : bool :=
  match v with
  | PInt _ => true
  | PFloat f => is_finite f
  end.

(** The checks, by evaluation, behind two facts about valid pixels: the
    Sobel kernels respond with magnitude 0 where all the pixels read are
    the same [v], and sharpening with the 1 by 1 kernel gives [z] back. *)
Definition flat_check (v : Z) : bool :=
  match correlate_pixel 1 1 [PInt v] Kx 0 0, correlate_pixel 1 1 [PInt v] Ky 0 0 with
  | Ok a, Ok b =>
      match rbind (magnitude (a, b)) quantize with
      | Ok (PInt 0) => true
      | _ => false
      end
  | _, _ => false
  end.

Definition sharpen_1_check (z : Z) : bool :=
  match blur_1 (PInt z) with
  | Ok y =>
      match rbind (unsharp (PInt z, y)) quantize with
      | Ok (PInt r) => r =? z
      | _ => false
      end
  | Raise _ => false
  end.

(** ** Basic facts *)

Lemma range_seqZ n : range n = seqZ 0 n.
Proof.
  unfold range, seqZ. apply map_ext. intros a. lia.
Qed.

Lemma elem_of_range n x : x ∈ range n <-> 0 <= x < n.
Proof.
  rewrite range_seqZ, elem_of_seqZ. lia.
Qed.

Lemma in_bound_resolve dim s : in_bound dim s = resolve dim s.
Proof.
  unfold in_bound, resolve.
  destruct (Z.leb_spec s (-1)), (Z.ltb_spec s 0); try lia; try reflexivity.
  destruct (Z.geb_spec s dim), (Z.leb_spec dim s); try lia; reflexivity.
Qed.

Lemma in_bound_range dim s : 1 <= dim -> 0 <= in_bound dim s < dim.
Proof.
  intros Hdim. unfold in_bound.
  destruct (Z.leb_spec s (-1)); [lia|].
  destruct (Z.geb_spec s dim); lia.
Qed.

Lemma py_getitem_lookup {A} (l : list A) (i : Z) :
  0 <= i < Z.of_nat (length l) ->
  exists v, l !! Z.to_nat i = Some v /\ py_getitem l i = Ok v.
Proof.
  intros Hi. unfold py_getitem.
  destruct (Z.ltb_spec i 0); [lia|].
  destruct (Z.leb_spec 0 i); [|lia].
  destruct (Z.ltb_spec i (Z.of_nat (length l))); [|lia].
  cbn [andb].
  destruct (lookup_lt_is_Some_2 l (Z.to_nat i)) as [v Hv]; [lia|].
  exists v. rewrite Hv. auto.
Qed.

Lemma py_getitem_elem_of {A} (l : list A) (i : Z) (v : A) :
  py_getitem l i = Ok v -> v ∈ l.
Proof.
  unfold py_getitem.
  destruct ((0 <=? _) && _); [|discriminate].
  destruct (l !! _) eqn:E; [|discriminate].
  intros [= <-]. eapply list_elem_of_lookup_2; eauto.
Qed.

(** Running the dictionary and list accessors on a store that holds the
    objects. *)
Section Accessors.
Variables (h : heap) (i : loc) (d : image_dict).
Hypothesis Hi : h !! i = Some (ODict d).

Lemma getitem_height_run : getitem_height i h = (Ok (height d), h).
Proof. unfold getitem_height, bind, read_dict, ret. now rewrite Hi. Qed.

Lemma getitem_width_run : getitem_width i h = (Ok (width d), h).
Proof. unfold getitem_width, bind, read_dict, ret. now rewrite Hi. Qed.

Lemma getitem_pixels_run : getitem_pixels i h = (Ok (pixels d), h).
Proof. unfold getitem_pixels, bind, read_dict, ret. now rewrite Hi. Qed.

Lemma get_pixel_run px x y :
  h !! pixels d = Some (OList px) ->
  get_pixel i x y h =
    (py_getitem px (in_bound (height d) x * width d + in_bound (width d) y), h).
Proof.
  intros Hp. unfold get_pixel, bind.
  rewrite getitem_height_run, getitem_width_run, getitem_pixels_run.
  rewrite getitem_width_run.
  unfold list_getitem, bind, read_list, lift. now rewrite Hp.
Qed.
End Accessors.

(** ** BoundaryResolver and PixelAccessor *)

(** C2: for all integers, [in_bound] returns 0 for a negative coordinate,
    [dimensionSize - 1] for a coordinate at or beyond [dimensionSize], and
    the coordinate itself otherwise.  The cases are read in this order, as
    the code tests them: they can overlap only when [dimensionSize] is
    negative, and then the first one applies. *)
Theorem in_bound_cases (dimensionSize coordinate : Z) :
  (coordinate < 0 -> in_bound dimensionSize coordinate = 0) /\
  (0 <= coordinate \/ 0 <= dimensionSize ->
   coordinate >= dimensionSize ->
   in_bound dimensionSize coordinate = dimensionSize - 1) /\
  (~ coordinate < 0 -> ~ coordinate >= dimensionSize ->
   in_bound dimensionSize coordinate = coordinate).
Proof.
  unfold in_bound. repeat split; intros.
  - destruct (Z.leb_spec coordinate (-1)); [reflexivity | lia].
  - destruct (Z.leb_spec coordinate (-1)); [lia|].
    destruct (Z.geb_spec coordinate dimensionSize); [reflexivity | lia].
  - destruct (Z.leb_spec coordinate (-1)); [lia|].
    destruct (Z.geb_spec coordinate dimensionSize); [lia | reflexivity].
Qed.

Lemma in_bound_cases_witness :
  in_bound 11 (-3) = 0 /\ in_bound 11 14 = 10 /\ in_bound 11 4 = 4.
Proof.
  destruct (in_bound_cases 11 (-3)) as [H1 _].
  destruct (in_bound_cases 11 14) as (_ & H2 & _).
  destruct (in_bound_cases 11 4) as (_ & _ & H3).
  split; [apply H1; lia|]. split; [apply H2; lia | apply H3; lia].
Defined.

(** C10: on an image with at least one row and one column whose pixel list
    has [height * width] elements, [get_pixel] resolves every pair of
    integers to a row [r] and a column [c] inside the image, reads index
    [r * width + c] inside the list, does not raise and returns an element
    of the list, leaving the store as it was. *)
Theorem get_pixel_in_bounds (h : heap) (i : loc) (hh ww : Z) (px : list num)
        (x y : Z) :
  image_at h i hh ww px ->
  1 <= hh -> 1 <= ww -> Z.of_nat (length px) = hh * ww ->
  exists r c v,
    r = in_bound hh x /\ c = in_bound ww y /\
    0 <= r < hh /\ 0 <= c < ww /\
    0 <= r * ww + c < Z.of_nat (length px) /\
    px !! Z.to_nat (r * ww + c) = Some v /\
    v ∈ px /\
    get_pixel i x y h = (Ok v, h).
Proof.
  intros (p & Hi & Hp) Hh Hw Hlen.
  pose proof (in_bound_range hh x Hh) as Hr.
  pose proof (in_bound_range ww y Hw) as Hc.
  assert (Hidx : 0 <= in_bound hh x * ww + in_bound ww y < Z.of_nat (length px))
    by (rewrite Hlen; nia).
  destruct (py_getitem_lookup px _ Hidx) as (v & Hv & Hget).
  exists (in_bound hh x), (in_bound ww y), v.
  repeat split; try lia; auto.
  - eapply list_elem_of_lookup_2; eauto.
  - rewrite (get_pixel_run h i _ Hi px x y Hp). cbn. now rewrite Hget.
Qed.

Lemma get_pixel_in_bounds_witness :
  exists v, get_pixel 1%nat (-7) 40 [OList [PInt 5; PInt 6]; ODict (mk_image 1 2 0%nat)]
            = (Ok v, [OList [PInt 5; PInt 6]; ODict (mk_image 1 2 0%nat)]).
Proof.
  destruct (get_pixel_in_bounds
              [OList [PInt 5; PInt 6]; ODict (mk_image 1 2 0%nat)] 1%nat 1 2
              [PInt 5; PInt 6] (-7) 40) as (r & c & v & H);
    [exists 0%nat; split; reflexivity | lia | lia | reflexivity |].
  exists v. apply H.
Defined.

(** ** Loops *)

Lemma rfold_app {A B} (g : A -> B -> result B) xs ys acc :
  rfold g (xs ++ ys) acc = rbind (rfold g xs acc) (rfold g ys).
Proof.
  revert acc. induction xs as [|x xs IH]; intros acc; cbn; [reflexivity|].
  destruct (g x acc); cbn; auto.
Qed.

Lemma rfold_map {A A' B} (g : A' -> B -> result B) (f : A -> A') xs acc :
  rfold g (map f xs) acc = rfold (fun a => g (f a)) xs acc.
Proof.
  revert acc. induction xs as [|x xs IH]; intros acc; cbn; [reflexivity|].
  destruct (g (f x) acc); cbn; auto.
Qed.

Lemma rfold_ext {A B} (g1 g2 : A -> B -> result B) xs :
  (forall a, a ∈ xs -> forall acc, g1 a acc = g2 a acc) ->
  forall acc, rfold g1 xs acc = rfold g2 xs acc.
Proof.
  induction xs as [|x xs IH]; intros Hg acc; cbn; [reflexivity|].
  rewrite (Hg x) by constructor.
  destruct (g2 x acc); cbn; [|reflexivity].
  apply IH. intros ? ?. apply Hg. now constructor.
Qed.

Lemma rfold_list_prod {A A' B} (g : A * A' -> B -> result B) xs ys acc :
  rfold (fun a acc => rfold (fun b acc => g (a, b) acc) ys acc) xs acc
  = rfold g (list_prod xs ys) acc.
Proof.
  revert acc. induction xs as [|x xs IH]; intros acc; cbn; [reflexivity|].
  rewrite rfold_app, rfold_map.
  destruct (rfold _ ys acc); cbn; auto.
Qed.

Lemma for_acc_pure {A B} (body : A -> B -> M B) (g : A -> B -> result B) (h : heap) xs :
  (forall a, a ∈ xs -> forall acc, body a acc h = (g a acc, h)) ->
  forall acc, for_acc xs body acc h = (rfold g xs acc, h).
Proof.
  induction xs as [|x xs IH]; intros Hb acc; cbn; [reflexivity|].
  unfold bind. rewrite (Hb x) by constructor.
  destruct (g x acc); cbn; [|reflexivity].
  apply IH. intros ? ?. apply Hb. now constructor.
Qed.

Lemma for_each_ext {A} (b1 b2 : A -> M unit) xs :
  (forall a, a ∈ xs -> forall h, b1 a h = b2 a h) ->
  forall h, for_each xs b1 h = for_each xs b2 h.
Proof.
  induction xs as [|x xs IH]; intros Hb h; cbn; [reflexivity|].
  unfold bind. rewrite (Hb x) by constructor.
  destruct (b2 x h) as [[[]|e] h']; [|reflexivity].
  apply IH. intros ? ?. apply Hb. now constructor.
Qed.

Lemma for_acc_ext {A B} (b1 b2 : A -> B -> M B) xs :
  (forall a, a ∈ xs -> forall acc h, b1 a acc h = b2 a acc h) ->
  forall acc h, for_acc xs b1 acc h = for_acc xs b2 acc h.
Proof.
  induction xs as [|x xs IH]; intros Hb acc h; cbn; [reflexivity|].
  unfold bind. rewrite (Hb x) by constructor.
  destruct (b2 x acc h) as [[acc'|e] h']; [|reflexivity].
  apply IH. intros ? ?. apply Hb. now constructor.
Qed.

Lemma collect_app {A B} (f : A -> result B) xs ys :
  collect f (xs ++ ys) =
    match snd (collect f xs) with
    | Ok _ => (fst (collect f xs) ++ fst (collect f ys), snd (collect f ys))
    | Raise e => (fst (collect f xs), Raise e)
    end.
Proof.
  induction xs as [|x xs IH]; cbn.
  - now destruct (collect f ys).
  - destruct (f x); cbn; [|reflexivity].
    rewrite IH. destruct (collect f xs) as [vs [[]|e]]; cbn; reflexivity.
Qed.

Lemma collect_map {A A' B} (f : A' -> result B) (g : A -> A') xs :
  collect f (map g xs) = collect (fun a => f (g a)) xs.
Proof.
  induction xs as [|x xs IH]; cbn; [reflexivity|].
  destruct (f (g x)); [|reflexivity]. now rewrite IH.
Qed.

Lemma collect_ok_length {A B} (f : A -> result B) xs :
  snd (collect f xs) = Ok tt -> length (fst (collect f xs)) = length xs.
Proof.
  induction xs as [|x xs IH]; cbn; [reflexivity|].
  destruct (f x); cbn; [|discriminate].
  destruct (collect f xs) as [vs r]; cbn in *. intros Hr. now rewrite IH.
Qed.

Lemma collect_ok_lookup {A B} (f : A -> result B) xs k a :
  snd (collect f xs) = Ok tt -> xs !! k = Some a ->
  exists v, f a = Ok v /\ fst (collect f xs) !! k = Some v.
Proof.
  revert k. induction xs as [|x xs IH]; intros k; cbn; [discriminate 2|].
  destruct (f x) eqn:Hfx; cbn; [|discriminate].
  destruct (collect f xs) as [vs r]; cbn in *. intros Hr.
  destruct k as [|k]; cbn.
  - intros [= <-]. eauto.
  - intros Hk. apply IH; auto.
Qed.

Lemma collect_all_ok {A B} (f : A -> result B) xs :
  (forall a, a ∈ xs -> exists v, f a = Ok v) -> snd (collect f xs) = Ok tt.
Proof.
  induction xs as [|x xs IH]; intros Hf; cbn; [reflexivity|].
  destruct (Hf x) as [v Hv]; [constructor|]. rewrite Hv.
  destruct (collect f xs) as [vs r] eqn:E; cbn in *.
  apply IH. intros ? ?. apply Hf. now constructor.
Qed.

Lemma collect_length_le {A B} (f : A -> result B) xs :
  (length (fst (collect f xs)) <= length xs)%nat.
Proof.
  induction xs as [|x xs IH]; cbn; [lia|].
  destruct (f x); cbn; [|lia].
  destruct (collect f xs); cbn in *. lia.
Qed.

(** A loop whose body computes a value and appends it to a list object:
    [st vs] is the store when the list holds [vs]. *)
Section FillLoop.
Context {A : Type}.
Variable st : list num -> heap.
Variable f : A -> result num.
Variable body : A -> M unit.

Lemma fill_loop xs :
  (forall a, a ∈ xs -> forall vs,
      body a (st vs) =
        match f a with
        | Ok v => (Ok tt, st (vs ++ [v]))
        | Raise e => (Raise e, st vs)
        end) ->
  forall vs,
    for_each xs body (st vs) =
      (snd (collect f xs), st (vs ++ fst (collect f xs))).
Proof.
  induction xs as [|x xs IH]; intros Hb vs; cbn.
  - now rewrite app_nil_r.
  - unfold bind. rewrite (Hb x) by constructor.
    destruct (f x) as [v|e]; cbn.
    + rewrite IH by (intros ? ?; apply Hb; now constructor).
      destruct (collect f xs) as [ws r]; cbn.
      now rewrite <- app_assoc.
    + now rewrite app_nil_r.
Qed.
End FillLoop.

(** The same for two nested loops, the inner one re-reading its bound. *)
Lemma fill_loop2 {A A'} (st : list num -> heap) (f : A * A' -> result num)
      (inner : A -> M unit) (ys : list A') xs :
  (forall a, a ∈ xs -> forall vs,
      inner a (st vs) =
        (snd (collect (fun b => f (a, b)) ys),
         st (vs ++ fst (collect (fun b => f (a, b)) ys)))) ->
  forall vs,
    for_each xs inner (st vs) =
      (snd (collect f (list_prod xs ys)),
       st (vs ++ fst (collect f (list_prod xs ys)))).
Proof.
  induction xs as [|x xs IH]; intros Hb vs; cbn.
  - now rewrite app_nil_r.
  - unfold bind. rewrite (Hb x) by constructor.
    rewrite collect_app, collect_map.
    destruct (collect (fun b => f (x, b)) ys) as [ws [[]|e]]; cbn; [|reflexivity].
    rewrite IH by (intros ? ?; apply Hb; now constructor).
    now rewrite <- app_assoc.
Qed.

Lemma list_prod_lookup {A B} (xs : list A) (ys : list B) a b x y :
  xs !! a = Some x -> ys !! b = Some y ->
  list_prod xs ys !! (a * length ys + b)%nat = Some (x, y).
Proof.
  revert a. induction xs as [|x0 xs IH]; intros a; [discriminate 1|].
  intros Ha Hb. cbn [list_prod].
  destruct a as [|a]; cbn in Ha.
  - injection Ha as ->. cbn. rewrite lookup_app_l.
    + rewrite list_lookup_fmap, Hb. reflexivity.
    + rewrite length_map. eapply lookup_lt_Some; eauto.
  - rewrite lookup_app_r; rewrite length_map; [|lia].
    replace (S a * length ys + b - length ys)%nat with (a * length ys + b)%nat by lia.
    now apply IH.
Qed.

Lemma range_lookup n x : 0 <= x < n -> range n !! Z.to_nat x = Some x.
Proof.
  intros Hx. rewrite range_seqZ. apply lookup_seqZ. lia.
Qed.

Lemma length_range n : length (range n) = Z.to_nat n.
Proof. unfold range. now rewrite length_map, length_seq. Qed.

Lemma coords_lookup hh ww x y :
  0 <= x < hh -> 0 <= y < ww ->
  list_prod (range hh) (range ww) !! Z.to_nat (x * ww + y) = Some (x, y).
Proof.
  intros Hx Hy.
  replace (Z.to_nat (x * ww + y))
    with (Z.to_nat x * length (range ww) + Z.to_nat y)%nat
    by (rewrite length_range; nia).
  apply list_prod_lookup; now apply range_lookup.
Qed.

Lemma length_list_prod {A B} (xs : list A) (ys : list B) :
  length (list_prod xs ys) = (length xs * length ys)%nat.
Proof.
  induction xs as [|x xs IH]; cbn; [reflexivity|].
  now rewrite length_app, length_map, IH.
Qed.

(** ** The output image under construction *)

Lemma out_store_old h hh ww vs l o :
  h !! l = Some o -> out_store h hh ww vs !! l = Some o.
Proof.
  intros Hl. unfold out_store. rewrite lookup_app_l; [assumption|].
  eapply lookup_lt_Some; eauto.
Qed.

Lemma out_store_list h hh ww vs :
  out_store h hh ww vs !! length h = Some (OList vs).
Proof.
  unfold out_store. rewrite lookup_app_r by lia.
  now rewrite Nat.sub_diag.
Qed.

Lemma out_store_dict h hh ww vs :
  out_store h hh ww vs !! S (length h) = Some (ODict (mk_image hh ww (length h))).
Proof.
  unfold out_store. rewrite lookup_app_r by lia.
  now replace (S (length h) - length h)%nat with 1%nat by lia.
Qed.

Lemma out_store_write h hh ww vs ws :
  <[length h := OList ws]> (out_store h hh ww vs) = out_store h hh ww ws.
Proof.
  unfold out_store. rewrite insert_app_r_alt by lia.
  now rewrite Nat.sub_diag.
Qed.

Lemma out_store_image h hh ww vs :
  image_at (out_store h hh ww vs) (S (length h)) hh ww vs.
Proof.
  exists (length h). split; [apply out_store_dict | apply out_store_list].
Qed.

Lemma out_store_image_old h hh ww vs i hh' ww' px :
  image_at h i hh' ww' px -> image_at (out_store h hh ww vs) i hh' ww' px.
Proof.
  intros (p & Hi & Hp). exists p. split; now apply out_store_old.
Qed.

Lemma new_image_run h hh ww :
  new_image hh ww h = (Ok (S (length h)), out_store h hh ww []).
Proof.
  unfold new_image, bind, alloc, out_store.
  rewrite length_app, <- app_assoc. cbn. f_equal. f_equal. lia.
Qed.

Lemma set_pixel_run h hh ww vs v :
  set_pixel (S (length h)) v (out_store h hh ww vs)
  = (Ok tt, out_store h hh ww (vs ++ [v])).
Proof.
  unfold set_pixel, bind.
  rewrite (getitem_pixels_run _ _ _ (out_store_dict h hh ww vs)). cbn [pixels].
  unfold list_append, bind, read_list, write.
  now rewrite out_store_list, out_store_write.
Qed.

(** ** Correlator *)

Lemma correlate_inner_run h i hh ww px kernel x y :
  image_at h i hh ww px ->
  let kernel_size := Z.sqrt (Z.of_nat (length kernel)) in
  let num_layers := Z.quot (kernel_size - 1) 2 in
  for_acc (range kernel_size) (fun h newpixel =>
    for_acc (range kernel_size) (fun w newpixel =>
      let! k := lift (py_getitem kernel (h * kernel_size + w)) in
      let! c := get_pixel i (x - num_layers + h) (y - num_layers + w) in
      let! t := lift (py_mul k c) in
      lift (py_add newpixel t)) newpixel)
    (PFloat (S754_zero false)) h
  = (correlate_pixel hh ww px kernel x y, h).
Proof.
  intros (p & Hi & Hp) ks nl. unfold correlate_pixel. fold ks. fold nl.
  apply for_acc_pure. intros a _ acc.
  apply for_acc_pure. intros b _ acc'.
  unfold bind, lift.
  destruct (py_getitem kernel _) as [k|e]; cbn; [|reflexivity].
  rewrite (get_pixel_run h i _ Hi px _ _ Hp). cbn [height width].
  destruct (py_getitem px _) as [c|e]; cbn; [|reflexivity].
  destruct (py_mul k c) as [t|e]; cbn; reflexivity.
Qed.

(** [correlate] allocates a new list and a new dictionary, fills the list in
    row-major order and stops at the first arithmetic error. *)
Lemma correlate_run h i hh ww px kernel :
  image_at h i hh ww px ->
  let C := collect (fun xy => correlate_pixel hh ww px kernel (fst xy) (snd xy))
             (list_prod (range hh) (range ww)) in
  correlate i kernel h
  = (status (snd C) (S (length h)), out_store h hh ww (fst C)).
Proof.
  intros Himg C. pose proof Himg as (p & Hi & Hp).
  unfold correlate, bind. cbv zeta.
  rewrite (getitem_height_run h i _ Hi), (getitem_width_run h i _ Hi).
  cbn [height width]. rewrite new_image_run.
  assert (Hi' : forall vs, out_store h hh ww vs !! i = Some (ODict (mk_image hh ww p)))
    by (intros; now apply out_store_old).
  rewrite (getitem_height_run _ i _ (Hi' [])). cbn [height].
  rewrite (fill_loop2 (out_store h hh ww)
             (fun xy => correlate_pixel hh ww px kernel (fst xy) (snd xy))
             _ (range ww)).
  - fold C. cbn [app]. destruct (snd C) as [[]|e]; reflexivity.
  - intros x _ vs. unfold bind.
    rewrite (getitem_width_run _ i _ (Hi' vs)). cbn [width].
    apply (fill_loop (out_store h hh ww)
             (fun y => correlate_pixel hh ww px kernel x y)).
    intros y _ ws. unfold bind.
    pose proof (correlate_inner_run _ i hh ww px kernel x y
                  (out_store_image_old h hh ww ws i hh ww px Himg)) as Hin.
    cbv zeta in Hin. unfold bind in Hin. rewrite Hin. clear Hin.
    cbn [fst snd].
    destruct (correlate_pixel hh ww px kernel x y) as [v|e]; [|reflexivity].
    apply set_pixel_run.
Qed.

Lemma in_float_range_elim kernel px :
  in_float_range kernel px = true ->
  forall k c, k ∈ kernel -> c ∈ px ->
    num_ok k = true /\ num_ok c = true /\ product_ok k c = true.
Proof.
  unfold in_float_range. rewrite !andb_true_iff, !forallb_forall.
  intros [[Hk Hc] Hkc] k c Hink Hinc.
  apply list_elem_of_In in Hink, Hinc.
  specialize (Hkc k Hink). rewrite forallb_forall in Hkc. auto.
Qed.

Lemma float_of_int_ok z : float_ok z = true -> exists f, float_of_int z = Ok f.
Proof.
  unfold float_ok, float_of_int. intros H. apply negb_true_iff in H.
  rewrite H. eauto.
Qed.

Lemma py_mul_ok k c :
  num_ok k = true -> num_ok c = true -> product_ok k c = true ->
  exists t, py_mul k c = Ok t /\ num_ok t = true.
Proof.
  unfold py_mul, arith.
  destruct k as [a|f], c as [b|g]; cbn [num_ok product_ok to_float]; intros Hk Hc Hkc.
  - eauto.
  - destruct (float_of_int_ok a Hk) as [fa ->]. cbn. eauto.
  - destruct (float_of_int_ok b Hc) as [fb ->]. cbn. eauto.
  - cbn. eauto.
Qed.

Lemma py_add_float_ok s t :
  num_ok t = true -> exists f, py_add (PFloat s) t = Ok (PFloat f).
Proof.
  unfold py_add, arith. destruct t as [b|g]; cbn [num_ok to_float rbind]; intros Ht.
  - destruct (float_of_int_ok b Ht) as [fb ->]. cbn. eauto.
  - eauto.
Qed.

Lemma rfold_invariant {A B} (P : B -> Prop) (g : A -> B -> result B) xs :
  (forall a, a ∈ xs -> forall acc, P acc -> exists acc', g a acc = Ok acc' /\ P acc') ->
  forall acc, P acc -> exists r, rfold g xs acc = Ok r /\ P r.
Proof.
  induction xs as [|x xs IH]; intros Hg acc Hacc; cbn; [eauto|].
  destruct (Hg x (list_elem_of_here _ _) acc Hacc) as (acc' & -> & Hacc'). cbn.
  apply IH; [|assumption]. intros ? ?. apply Hg. now constructor.
Qed.

Lemma elem_of_coords hh ww xy :
  xy ∈ list_prod (range hh) (range ww) <-> (0 <= fst xy < hh /\ 0 <= snd xy < ww).
Proof.
  destruct xy as [x y]. rewrite list_elem_of_In, in_prod_iff.
  rewrite <- !list_elem_of_In, !elem_of_range. reflexivity.
Qed.

Lemma getPixel_ok hh ww px row col :
  1 <= hh -> 1 <= ww -> Z.of_nat (length px) = hh * ww ->
  exists c, getPixel hh ww px row col = Ok c /\ c ∈ px.
Proof.
  intros Hh Hw Hlen. unfold getPixel. rewrite <- !in_bound_resolve.
  pose proof (in_bound_range hh row Hh). pose proof (in_bound_range ww col Hw).
  destruct (py_getitem_lookup px (in_bound hh row * ww + in_bound ww col))
    as (c & Hc & Hget); [rewrite Hlen; nia|].
  exists c. split; [assumption|]. eapply list_elem_of_lookup_2; eauto.
Qed.

(** With the arithmetic in range the weighted sum is defined, and it is a
    float. *)
Lemma weighted_sum_defined hh ww px kernel n x y :
  1 <= hh -> 1 <= ww -> Z.of_nat (length px) = hh * ww ->
  Z.of_nat (length kernel) = n * n -> 0 < n ->
  in_float_range kernel px = true ->
  exists f, weighted_sum hh ww px kernel n x y = Ok (PFloat f).
Proof.
  intros Hh Hw Hlen Hk Hn Hrange. unfold weighted_sum.
  destruct (rfold_invariant (fun acc => exists f, acc = PFloat f)
              (fun kk sum =>
                 rbind (py_getitem kernel (fst kk * n + snd kk)) (fun k =>
                 rbind (getPixel hh ww px (x - (n - 1) / 2 + fst kk)
                                 (y - (n - 1) / 2 + snd kk)) (fun c =>
                 rbind (py_mul k c) (fun t => py_add sum t))))
              (list_prod (range n) (range n))) with (acc := PFloat (S754_zero false))
    as (r & Hr & f & ->); eauto.
  intros [kr kc] Hkk acc [s ->]. apply elem_of_coords in Hkk. cbn [fst snd] in *.
  destruct (py_getitem_lookup kernel (kr * n + kc)) as (k & Hlk & ->);
    [rewrite Hk; nia|].
  assert (Hink : k ∈ kernel) by (eapply list_elem_of_lookup_2; eauto).
  destruct (getPixel_ok hh ww px (x - (n - 1) / 2 + kr) (y - (n - 1) / 2 + kc))
    as (c & -> & Hinc); auto.
  destruct (in_float_range_elim _ _ Hrange k c Hink Hinc) as (Hok & Hoc & Hokc).
  cbn [rbind].
  destruct (py_mul_ok k c Hok Hoc Hokc) as (t & -> & Hot).
  cbn [rbind].
  destruct (py_add_float_ok s t Hot) as (f & ->).
  eauto.
Qed.

(** The inner loops of [correlate] compute the weighted sum of the
    specification when the kernel has [n * n] weights. *)
Lemma correlate_pixel_weighted_sum hh ww px kernel n x y :
  Z.of_nat (length kernel) = n * n -> 0 < n ->
  correlate_pixel hh ww px kernel x y = weighted_sum hh ww px kernel n x y.
Proof.
  intros Hk Hn. unfold correlate_pixel, weighted_sum. cbv zeta.
  rewrite Hk, Z.sqrt_square by lia.
  replace ((n - 1) `quot` 2) with ((n - 1) / 2) by (symmetry; apply Z.quot_div_nonneg; lia).
  rewrite <- (rfold_list_prod
                (fun kk sum =>
                   rbind (py_getitem kernel (fst kk * n + snd kk)) (fun k =>
                   rbind (getPixel hh ww px (x - (n - 1) / 2 + fst kk)
                                   (y - (n - 1) / 2 + snd kk)) (fun c =>
                   rbind (py_mul k c) (fun t => py_add sum t))))).
  apply rfold_ext. intros a _ acc. apply rfold_ext. intros b _ acc'.
  cbn [fst snd]. unfold getPixel. now rewrite !in_bound_resolve.
Qed.

(** C1: on a well-formed image and a kernel of [n * n] weights ([n]
    positive, in particular [n] odd) whose integers fit the float range,
    [correlate] returns a new image of the same height and width whose pixel
    at index [x * width + y] is the weighted sum over [kr], [kc] in [0, n)
    of [kernel[kr*n + kc] * getPixel(I, x - half + kr, y - half + kc)] with
    [half = floor((n-1)/2)]; the value is stored as computed, neither
    rounded to an integer nor clamped, and the input image is left as it
    was. *)
Theorem correlate_weighted_sums (h : heap) (i : loc) (hh ww : Z)
        (px kernel : list num) (n : Z) :
  image_at h i hh ww px ->
  well_formed hh ww px ->
  Z.of_nat (length kernel) = n * n ->
  0 < n -> Z.odd n = true ->
  in_float_range kernel px = true ->
  exists r h' vs,
    correlate i kernel h = (Ok r, h') /\
    image_at h' r hh ww vs /\
    image_at h' i hh ww px /\
    Z.of_nat (length vs) = hh * ww /\
    forall x y, 0 <= x < hh -> 0 <= y < ww ->
      exists v, weighted_sum hh ww px kernel n x y = Ok v /\
                vs !! Z.to_nat (x * ww + y) = Some v.
Proof.
  intros Himg (Hh & Hw & Hlen) Hk Hn _ Hrange.
  set (F := fun xy : Z * Z => correlate_pixel hh ww px kernel (fst xy) (snd xy)).
  set (C := collect F (list_prod (range hh) (range ww))).
  assert (HC : snd C = Ok tt).
  { apply collect_all_ok. intros [x y] Hxy. apply elem_of_coords in Hxy.
    cbn [fst snd] in Hxy. unfold F. cbn [fst snd].
    rewrite (correlate_pixel_weighted_sum hh ww px kernel n) by assumption.
    destruct (weighted_sum_defined hh ww px kernel n x y) as [f Hf];
      try assumption; try lia. eauto. }
  exists (S (length h)), (out_store h hh ww (fst C)), (fst C).
  split; [|split; [|split; [|split]]].
  - rewrite (correlate_run h i hh ww px kernel Himg). fold F. fold C.
    now rewrite HC.
  - apply out_store_image.
  - now apply out_store_image_old.
  - unfold C. rewrite collect_ok_length by exact HC.
    rewrite length_list_prod, !length_range. nia.
  - intros x y Hx Hy.
    destruct (collect_ok_lookup F _ _ _ HC (coords_lookup hh ww x y Hx Hy))
      as (v & Hv & Hlk).
    exists v. split; [|exact Hlk].
    unfold F in Hv. cbn [fst snd] in Hv.
    now rewrite <- (correlate_pixel_weighted_sum hh ww px kernel n).
Qed.

Lemma correlate_weighted_sums_witness :
  exists r h' vs,
    correlate 1%nat Kx [OList (map PInt [10; 20; 30; 40]); ODict (mk_image 2 2 0%nat)]
      = (Ok r, h') /\
    image_at h' r 2 2 vs /\
    image_at h' 1%nat 2 2 (map PInt [10; 20; 30; 40]) /\
    Z.of_nat (length vs) = 2 * 2 /\
    forall x y, 0 <= x < 2 -> 0 <= y < 2 ->
      exists v, weighted_sum 2 2 (map PInt [10; 20; 30; 40]) Kx 3 x y = Ok v /\
                vs !! Z.to_nat (x * 2 + y) = Some v.
Proof.
  apply (correlate_weighted_sums
           [OList (map PInt [10; 20; 30; 40]); ODict (mk_image 2 2 0%nat)]
           1%nat 2 2 (map PInt [10; 20; 30; 40]) Kx 3).
  - exists 0%nat. split; reflexivity.
  - repeat split; cbn; lia.
  - reflexivity.
  - lia.
  - reflexivity.
  - vm_compute. reflexivity.
Defined.

(** Congruence of [bind], used to compare two runs of the same code. *)
Lemma bind_ext {A B} (m : M A) (k1 k2 : A -> M B) (h : heap) :
  (forall a h', k1 a h' = k2 a h') -> bind m k1 h = bind m k2 h.
Proof.
  intros Hk. unfold bind. destruct (m h) as [[a|e] h']; auto.
Qed.

Lemma bind_ext_l {A B} (m1 m2 : M A) (k : A -> M B) (h : heap) :
  m1 h = m2 h -> bind m1 k h = bind m2 k h.
Proof.
  intros Hm. unfold bind. now rewrite Hm.
Qed.

Lemma py_getitem_take {A} (l : list A) (n : nat) (i : Z) :
  0 <= i < Z.of_nat n -> (n <= length l)%nat ->
  py_getitem (take n l) i = py_getitem l i.
Proof.
  intros Hi Hn. unfold py_getitem. rewrite length_take, Nat.min_l by assumption.
  destruct (Z.ltb_spec i 0); [lia|].
  destruct (Z.leb_spec 0 i); [|lia].
  destruct (Z.ltb_spec i (Z.of_nat n)); [|lia].
  destruct (Z.ltb_spec i (Z.of_nat (length l))); [|lia].
  cbn [andb]. rewrite lookup_take_lt by lia. reflexivity.
Qed.

Lemma float_of_int_0 : float_of_int 0 = Ok (S754_zero false).
Proof. reflexivity. Qed.

(** On the one-pixel image whose pixel is the integer 0 the inner loops of
    [correlate] never raise, whatever the kernel holds. *)
Lemma correlate_pixel_zero_image kernel :
  exists f, correlate_pixel 1 1 [PInt 0] kernel 0 0 = Ok (PFloat f).
Proof.
  unfold correlate_pixel. cbv zeta.
  set (ks := Z.sqrt (Z.of_nat (length kernel))).
  assert (Hks : ks * ks <= Z.of_nat (length kernel)).
  { destruct (Z.sqrt_spec (Z.of_nat (length kernel))); unfold ks; lia. }
  destruct (rfold_invariant (fun acc => exists f, acc = PFloat f)
    (fun h newpixel =>
       rfold (fun w newpixel0 =>
         rbind (py_getitem kernel (h * ks + w)) (fun k =>
         rbind (py_getitem [PInt 0]
                  (in_bound 1 (0 - (ks - 1) `quot` 2 + h) * 1
                   + in_bound 1 (0 - (ks - 1) `quot` 2 + w))) (fun c =>
         rbind (py_mul k c) (fun t => py_add newpixel0 t))))
         (range ks) newpixel)
    (range ks)) with (acc := PFloat (S754_zero false)) as (r & Hr & f & ->); eauto.
  intros a Ha acc Hacc. apply elem_of_range in Ha.
  apply rfold_invariant; [|assumption].
  intros b Hb acc' [s ->]. apply elem_of_range in Hb.
  destruct (py_getitem_lookup kernel (a * ks + b)) as (k & _ & ->); [nia|].
  cbn [rbind].
  pose proof (in_bound_range 1 (0 - (ks - 1) `quot` 2 + a) ltac:(lia)) as H1.
  pose proof (in_bound_range 1 (0 - (ks - 1) `quot` 2 + b) ltac:(lia)) as H2.
  replace (in_bound 1 (0 - (ks - 1) `quot` 2 + a)) with 0 by lia.
  replace (in_bound 1 (0 - (ks - 1) `quot` 2 + b)) with 0 by lia.
  change (py_getitem [PInt 0] (0 * 1 + 0)) with (Ok (PInt 0)).
  cbn [rbind]. unfold py_mul, py_add, arith.
  destruct k as [z|g]; cbn [to_float rbind].
  - rewrite Z.mul_0_r, float_of_int_0. cbn [rbind]. eauto.
  - rewrite float_of_int_0. cbn [rbind]. eauto.
Qed.

(** C5, as the code is: no kernel of non-square length makes [correlate]
    raise on every non-empty well-formed image, so the length is not
    checked; the one-pixel black image is processed for every kernel. *)
Lemma correlate_does_not_fail_fast :
  ~ exists kernel : list num,
      (forall n, Z.of_nat (length kernel) <> n * n) /\
      (forall (h : heap) (i : loc) hh ww px,
          image_at h i hh ww px -> well_formed hh ww px -> 1 <= hh -> 1 <= ww ->
          exists e h', correlate i kernel h = (Raise e, h')).
Proof.
  intros (kernel & _ & Hraise).
  destruct (Hraise [OList [PInt 0]; ODict (mk_image 1 1 0%nat)] 1%nat 1 1 [PInt 0])
    as (e & h' & Hrun); try lia.
  - exists 0%nat. split; reflexivity.
  - repeat split; cbn; lia.
  - rewrite (correlate_run _ 1%nat 1 1 [PInt 0] kernel) in Hrun
      by (exists 0%nat; split; reflexivity).
    change (list_prod (range 1) (range 1)) with [(0, 0)] in Hrun.
    cbn [collect fst snd] in Hrun.
    destruct (correlate_pixel_zero_image kernel) as [f Hf].
    rewrite Hf in Hrun. cbn in Hrun. discriminate.
Qed.

(** C5 amended: a kernel whose length lies strictly between [n * n] and
    [(n + 1) * (n + 1)] is not rejected; [correlate] behaves on it exactly
    as on its first [n * n] weights (same outcome, same store), so the
    remaining weights are ignored. *)
Theorem correlate_ignores_excess_weights (h : heap) (i : loc)
        (kernel : list num) (n : Z) :
  0 <= n ->
  n * n < Z.of_nat (length kernel) < (n + 1) * (n + 1) ->
  correlate i kernel h = correlate i (take (Z.to_nat (n * n)) kernel) h.
Proof.
  intros Hn [Hlo Hhi].
  assert (Hs : Z.sqrt (Z.of_nat (length kernel)) = n)
    by (apply Z.sqrt_unique; lia).
  assert (Hs' : Z.sqrt (Z.of_nat (length (take (Z.to_nat (n * n)) kernel))) = n).
  { rewrite length_take, Nat.min_l by lia.
    rewrite Z2Nat.id by nia. apply Z.sqrt_square; lia. }
  unfold correlate. cbv zeta. rewrite Hs, Hs'.
  do 4 (apply bind_ext; intros ? ?).
  apply bind_ext_l, for_each_ext. intros x _ h1.
  apply bind_ext. intros ww h2.
  apply for_each_ext. intros y _ h3.
  apply bind_ext_l, for_acc_ext. intros kr Hkr acc h4.
  apply for_acc_ext. intros kc Hkc acc' h5.
  apply elem_of_range in Hkr, Hkc.
  apply bind_ext_l. unfold lift. rewrite py_getitem_take by nia. reflexivity.
Qed.

(** A kernel of five weights on the one-pixel image [7]: the call returns,
    and the pixel is 7 * (1 + 2 + 3 + 4) = 70.0; the fifth weight is not
    read. *)
Example correlate_five_weights :
  correlate 1%nat (map PInt [1; 2; 3; 4; 5]) [OList [PInt 7]; ODict (mk_image 1 1 0%nat)]
  = (Ok 3%nat,
     [OList [PInt 7]; ODict (mk_image 1 1 0%nat);
      OList [PFloat (S754_finite false 4925812092436480 (-46))];
      ODict (mk_image 1 1 2%nat)]) /\
  float_of_int 70 = Ok (S754_finite false 4925812092436480 (-46)).
Proof. split; vm_compute; reflexivity. Qed.

Lemma correlate_ignores_excess_weights_witness :
  correlate 1%nat (map PInt [1; 2; 3; 4; 5])
    [OList [PInt 7]; ODict (mk_image 1 1 0%nat)]
  = correlate 1%nat (take (Z.to_nat (2 * 2)) (map PInt [1; 2; 3; 4; 5]))
      [OList [PInt 7]; ODict (mk_image 1 1 0%nat)].
Proof.
  apply (correlate_ignores_excess_weights
           [OList [PInt 7]; ODict (mk_image 1 1 0%nat)] 1%nat
           (map PInt [1; 2; 3; 4; 5]) 2); cbn; lia.
Defined.

(** ** Quantizer *)

Lemma list_setitem_run (h : heap) (p : loc) (l : list num) (idx : nat) (v : num) :
  h !! p = Some (OList l) -> (idx < length l)%nat ->
  list_setitem p (Z.of_nat idx) v h = (Ok tt, <[p := OList (<[idx := v]> l)]> h).
Proof.
  intros Hp Hidx. unfold list_setitem, bind, read_list. rewrite Hp.
  destruct (Z.ltb_spec (Z.of_nat idx) 0); [lia|].
  destruct (Z.leb_spec 0 (Z.of_nat idx)); [|lia].
  destruct (Z.ltb_spec (Z.of_nat idx) (Z.of_nat (length l))); [|lia].
  cbn [andb]. unfold write. now rewrite Nat2Z.id.
Qed.

Lemma list_getitem_run (h : heap) (p : loc) (l : list num) (idx : nat) (v : num) :
  h !! p = Some (OList l) -> l !! idx = Some v ->
  list_getitem p (Z.of_nat idx) h = (Ok v, h).
Proof.
  intros Hp Hv. unfold list_getitem, bind, read_list, lift. rewrite Hp.
  destruct (py_getitem_lookup l (Z.of_nat idx)) as (v' & Hv' & ->).
  - apply lookup_lt_Some in Hv. lia.
  - rewrite Nat2Z.id in Hv'. congruence.
Qed.

Section ClipLoop.
Variables (i p : loc) (hh ww : Z).

Lemma clip_body_run (h : heap) (l : list num) (idx : nat) (v : num) :
  h !! i = Some (ODict (mk_image hh ww p)) ->
  h !! p = Some (OList l) ->
  l !! idx = Some v ->
  clip_body i p (Z.of_nat idx) h =
    match quantize v with
    | Ok q => (Ok tt, <[p := OList (<[idx := q]> l)]> h)
    | Raise e => (Raise e, h)
    end.
Proof.
  intros Hi Hp Hv. unfold clip_body, bind.
  rewrite (list_getitem_run h p l idx v Hp Hv).
  unfold quantize, lift. destruct (py_round v) as [r|e]; cbn [rbind]; [|reflexivity].
  assert (Hidx : (idx < length l)%nat) by (eapply lookup_lt_Some; eauto).
  destruct (r <? 0); [|destruct (r >? 255)];
    rewrite (getitem_pixels_run h i _ Hi); cbn [pixels];
    now apply list_setitem_run.
Qed.

Lemma clip_loop_run (rest : list num) :
  forall (done : list num) (h : heap),
    h !! i = Some (ODict (mk_image hh ww p)) ->
    h !! p = Some (OList (done ++ rest)) ->
    let C := collect quantize rest in
    for_each (seqZ (Z.of_nat (length done)) (Z.of_nat (length rest))) (clip_body i p) h
    = (snd C, <[p := OList (done ++ fst C ++ drop (length (fst C)) rest)]> h).
Proof.
  induction rest as [|v rest IH]; intros done h Hi Hp; cbn zeta.
  - cbn. rewrite list_insert_id; [reflexivity | exact Hp].
  - replace (Z.of_nat (length (v :: rest))) with (Z.succ (Z.of_nat (length rest)))
      by (cbn [length]; lia).
    rewrite seqZ_cons by lia.
    replace (Z.pred (Z.succ (Z.of_nat (length rest)))) with (Z.of_nat (length rest)) by lia.
    cbn [for_each]. unfold bind.
    rewrite (clip_body_run h (done ++ v :: rest) (length done) v Hi Hp)
      by (rewrite lookup_app_r by lia; now rewrite Nat.sub_diag).
    cbn [collect]. destruct (quantize v) as [q|e].
    + assert (Hne : i <> p) by (intros ->; congruence).
      assert (Hlt : (p < length h)%nat) by (eapply lookup_lt_Some; eauto).
      replace (Z.succ (Z.of_nat (length done)))
        with (Z.of_nat (length (done ++ [q]))) by (rewrite length_app; cbn; lia).
      rewrite (IH (done ++ [q])).
      * destruct (collect quantize rest) as [qs r]. cbn [fst snd length drop].
        rewrite list_insert_insert_eq, <- app_assoc. reflexivity.
      * rewrite list_lookup_insert_ne by auto. exact Hi.
      * rewrite list_lookup_insert_eq by assumption.
        rewrite insert_app_r_alt, Nat.sub_diag by lia.
        cbn. now rewrite <- app_assoc.
    + cbn [fst snd length drop app]. now rewrite list_insert_id.
Qed.
End ClipLoop.

(** [round_and_clip_image] overwrites the pixel list of its argument in
    place, position by position, stops at the first value that [round]
    rejects, and returns its argument. *)
Lemma round_and_clip_image_run (h : heap) (i p : loc) (hh ww : Z) (px : list num) :
  h !! i = Some (ODict (mk_image hh ww p)) ->
  h !! p = Some (OList px) ->
  let C := collect quantize px in
  round_and_clip_image i h
  = (status (snd C) i, <[p := OList (fst C ++ drop (length (fst C)) px)]> h).
Proof.
  intros Hi Hp C. unfold round_and_clip_image, bind.
  rewrite (getitem_pixels_run h i _ Hi). cbn [pixels].
  unfold read_list. rewrite Hp. rewrite range_seqZ.
  pose proof (clip_loop_run i p hh ww px [] h Hi Hp) as Hloop.
  cbn zeta in Hloop. cbn [length app] in Hloop. unfold clip_body, bind in Hloop.
  change (Z.of_nat 0) with 0 in Hloop.
  rewrite Hloop. fold C. destruct (snd C) as [[]|e]; reflexivity.
Qed.

Lemma round_half_even_pos_dyadic (m p : positive) :
  let z := round_half_even_pos m (Zneg p) in
  let d := Zpos (2 ^ p) in
  Z.abs (2 * (Zpos m - z * d)) <= d /\
  (Z.abs (2 * (Zpos m - z * d)) = d -> Z.even z = true).
Proof.
  cbv zeta. unfold round_half_even_pos.
  set (d := Zpos (2 ^ p)).
  pose proof (Z.div_mod (Zpos m) d ltac:(unfold d; lia)) as Hdm.
  pose proof (Z.mod_pos_bound (Zpos m) d ltac:(unfold d; lia)) as Hr.
  set (q := Zpos m / d) in *. set (r := Zpos m mod d) in *.
  destruct (Z.compare_spec (2 * r) d) as [He|Hl|Hg].
  - destruct (Z.even q) eqn:Hq.
    + split; [nia | auto].
    + split; [nia|]. intros _. rewrite Z.even_add, Hq. reflexivity.
  - split; [nia | intros; nia].
  - split; [nia | intros; nia].
Qed.

Lemma nearest_even_int z : nearest_even (inject_Z z) z.
Proof.
  unfold nearest_even, Qle, Qeq, Qabs, Qminus, Qplus, Qopp, inject_Z.
  cbn [Qnum Qden]. split; [lia | intros; lia].
Qed.

Lemma cond_Zopp_even s z : Z.even (cond_Zopp s z) = Z.even z.
Proof. destruct s; cbn; [apply Z.even_opp | reflexivity]. Qed.

Lemma cond_Zopp_mul s a b : cond_Zopp s a * b = cond_Zopp s (a * b).
Proof. destruct s; cbn; lia. Qed.

(** The model of [round] rounds a finite number to the nearest integer,
    ties to even. *)
Lemma py_round_nearest_even v q :
  num_value v = Some q -> exists z, py_round v = Ok z /\ nearest_even q z.
Proof.
  destruct v as [z|[s|s| |s m e]]; cbn [num_value float_value py_round];
    try discriminate.
  - intros [= <-]. exists z. split; [reflexivity | apply nearest_even_int].
  - intros [= <-]. exists 0. split; [reflexivity | apply (nearest_even_int 0)].
  - destruct e as [|e|p].
    + intros [= <-]. eexists. split; [reflexivity|].
      cbn [round_half_even_pos]. rewrite cond_Zopp_mul. apply nearest_even_int.
    + intros [= <-]. eexists. split; [reflexivity|].
      cbn [round_half_even_pos]. rewrite cond_Zopp_mul. apply nearest_even_int.
    + intros [= <-]. eexists. split; [reflexivity|].
      pose proof (round_half_even_pos_dyadic m p) as [Hle Htie].
      set (z := round_half_even_pos m (Zneg p)) in *.
      unfold nearest_even, Qle, Qeq, Qabs, Qminus, Qplus, Qopp, inject_Z.
      cbn [Qnum Qden]. rewrite cond_Zopp_even, !Pos.mul_1_r.
      destruct s; cbn [cond_Zopp]; (split; [lia | intros Heq; apply Htie; lia]).
Qed.

Lemma quantize_clamp v z : py_round v = Ok z -> quantize v = Ok (PInt (clamp z)).
Proof.
  unfold quantize, clamp. intros ->. cbn [rbind].
  destruct (z <? 0); [reflexivity|].
  destruct (Z.gtb_spec z 255), (Z.ltb_spec 255 z); try lia; reflexivity.
Qed.

Lemma clamp_range z : 0 <= clamp z <= 255.
Proof.
  unfold clamp. destruct (Z.ltb_spec z 0); [lia|].
  destruct (Z.ltb_spec 255 z); lia.
Qed.

Lemma clamp_id z : 0 <= z <= 255 -> clamp z = z.
Proof.
  intros Hz. unfold clamp. destruct (Z.ltb_spec z 0); [lia|].
  destruct (Z.ltb_spec 255 z); lia.
Qed.

(** A pixel list of finite numbers is quantized as a whole. *)
Lemma collect_quantize_finite (px : list num) :
  (forall v, v ∈ px -> exists q, num_value v = Some q) ->
  exists zs,
    collect quantize px = (map (fun z => PInt (clamp z)) zs, Ok tt) /\
    Forall2 (fun v z => py_round v = Ok z /\
                        exists q, num_value v = Some q /\ nearest_even q z) px zs.
Proof.
  induction px as [|v px IH]; intros Hfin.
  - exists []. split; [reflexivity | constructor].
  - destruct (Hfin v (list_elem_of_here _ _)) as [q Hq].
    destruct (py_round_nearest_even v q Hq) as (z & Hz & Hne).
    destruct IH as (zs & Hzs & Hall); [intros; apply Hfin; now constructor|].
    exists (z :: zs). split.
    + cbn [collect map]. rewrite (quantize_clamp v z Hz), Hzs. reflexivity.
    + constructor; eauto.
Qed.

(** C3: for an image whose pixels are finite numbers (ints or finite
    floats), [round_and_clip_image] returns the image with every pixel [v]
    replaced by [clamp z], where [z] is [v] rounded to the nearest integer,
    ties to the even one, and [clamp] maps values below 0 to 0 and above 255
    to 255; the pixel list holds exactly these integers, in order. *)
Theorem round_and_clip_image_quantizes (h : heap) (i : loc) (hh ww : Z)
        (px : list num) :
  image_at h i hh ww px ->
  (forall v, v ∈ px -> exists q, num_value v = Some q) ->
  exists zs h',
    round_and_clip_image i h = (Ok i, h') /\
    image_at h' i hh ww (map (fun z => PInt (clamp z)) zs) /\
    Forall2 (fun v z => exists q, num_value v = Some q /\ nearest_even q z) px zs.
Proof.
  intros (p & Hi & Hp) Hfin.
  destruct (collect_quantize_finite px Hfin) as (zs & Hzs & Hall).
  assert (Hlen : length zs = length px) by (symmetry; eapply Forall2_length; eauto).
  exists zs, (<[p := OList (map (fun z => PInt (clamp z)) zs)]> h).
  split; [|split].
  - rewrite (round_and_clip_image_run h i p hh ww px Hi Hp). rewrite Hzs.
    cbn [fst snd status]. rewrite length_map, Hlen, drop_all, app_nil_r.
    reflexivity.
  - assert (Hne : i <> p) by (intros ->; congruence).
    exists p. split.
    + rewrite list_lookup_insert_ne by auto. exact Hi.
    + apply list_lookup_insert_eq. eapply lookup_lt_Some; eauto.
  - eapply Forall2_impl; [exact Hall|]. cbn. intros v z [_ H]. exact H.
Qed.

Lemma round_and_clip_image_quantizes_witness :
  exists zs h',
    round_and_clip_image 1%nat
      [OList [PInt 300; PFloat (S754_finite true 5 (-1)); PFloat (S754_finite false 7 (-1))];
       ODict (mk_image 1 3 0%nat)] = (Ok 1%nat, h') /\
    image_at h' 1%nat 1 3 (map (fun z => PInt (clamp z)) zs) /\
    Forall2 (fun v z => exists q, num_value v = Some q /\ nearest_even q z)
      [PInt 300; PFloat (S754_finite true 5 (-1)); PFloat (S754_finite false 7 (-1))] zs.
Proof.
  apply (round_and_clip_image_quantizes
           [OList [PInt 300; PFloat (S754_finite true 5 (-1)); PFloat (S754_finite false 7 (-1))];
            ODict (mk_image 1 3 0%nat)] 1%nat 1 3).
  - exists 0%nat. split; reflexivity.
  - intros v Hv. apply list_elem_of_In in Hv. simpl in Hv.
    destruct Hv as [<-|[<-|[<-|[]]]]; eexists; reflexivity.
Defined.

Example round_and_clip_image_ties :
  round_and_clip_image 1%nat
    [OList [PInt 300; PFloat (S754_finite true 5 (-1)); PFloat (S754_finite false 7 (-1))];
     ODict (mk_image 1 3 0%nat)]
  = (Ok 1%nat, [OList [PInt 255; PInt 0; PInt 4]; ODict (mk_image 1 3 0%nat)]).
Proof. reflexivity. Qed.

Lemma valid_pixel_finite v : valid_pixel v -> exists q, num_value v = Some q.
Proof. intros (z & -> & _). cbn. eauto. Qed.

Lemma quantize_valid_pixel v : valid_pixel v -> quantize v = Ok v.
Proof.
  intros (z & -> & Hz). rewrite (quantize_clamp (PInt z) z) by reflexivity.
  now rewrite clamp_id.
Qed.

Lemma collect_quantize_valid (px : list num) :
  (forall v, v ∈ px -> valid_pixel v) -> collect quantize px = (px, Ok tt).
Proof.
  induction px as [|v px IH]; intros Hv; [reflexivity|].
  cbn [collect]. rewrite quantize_valid_pixel by (apply Hv; constructor).
  rewrite IH by (intros; apply Hv; now constructor). reflexivity.
Qed.

Lemma clamped_valid zs v :
  v ∈ map (fun z => PInt (clamp z)) zs -> valid_pixel v.
Proof.
  intros Hv. apply list_elem_of_fmap in Hv as (z & -> & _).
  exists (clamp z). split; [reflexivity | apply clamp_range].
Qed.

(** C4, as the code is: on the image with pixels [300, -4, 7] the call
    returns the very dictionary it was given and its pixel list now reads
    [255, 0, 7]; the input has been modified. *)
Lemma round_and_clip_image_mutates_input :
  let h := [OList [PInt 300; PInt (-4); PInt 7]; ODict (mk_image 1 3 0%nat)] in
  exists h',
    round_and_clip_image 1%nat h = (Ok 1%nat, h') /\
    image_at h 1%nat 1 3 [PInt 300; PInt (-4); PInt 7] /\
    image_at h' 1%nat 1 3 [PInt 255; PInt 0; PInt 7] /\
    ~ image_at h' 1%nat 1 3 [PInt 300; PInt (-4); PInt 7].
Proof.
  cbv zeta. eexists. split; [reflexivity|]. split; [|split].
  - exists 0%nat. split; reflexivity.
  - exists 0%nat. split; reflexivity.
  - intros (p & Hd & Hp). cbn in Hd. injection Hd as <-. discriminate Hp.
Qed.

(** C4 amended: for an image whose pixels are finite numbers,
    [round_and_clip_image] returns the dictionary it was given, not a new
    one; height, width and the identity of the pixel list are unchanged and
    no other object is touched; the pixel list keeps its length and is
    overwritten in place, and it reads as before the call exactly when every
    pixel was already an integer in [0, 255]. *)
Theorem round_and_clip_image_in_place (h : heap) (i p : loc) (hh ww : Z)
        (px : list num) :
  h !! i = Some (ODict (mk_image hh ww p)) ->
  h !! p = Some (OList px) ->
  (forall v, v ∈ px -> exists q, num_value v = Some q) ->
  exists px',
    round_and_clip_image i h = (Ok i, <[p := OList px']> h) /\
    length px' = length px /\
    (px' = px <-> forall v, v ∈ px -> valid_pixel v).
Proof.
  intros Hi Hp Hfin.
  destruct (collect_quantize_finite px Hfin) as (zs & Hzs & Hall).
  assert (Hlen : length zs = length px) by (symmetry; eapply Forall2_length; eauto).
  exists (map (fun z => PInt (clamp z)) zs). split; [|split].
  - rewrite (round_and_clip_image_run h i p hh ww px Hi Hp). rewrite Hzs.
    cbn [fst snd status]. rewrite length_map, Hlen, drop_all, app_nil_r.
    reflexivity.
  - now rewrite length_map.
  - split.
    + intros <-. apply clamped_valid.
    + intros Hv. pose proof (collect_quantize_valid px Hv) as Hpx.
      congruence.
Qed.

Lemma round_and_clip_image_in_place_witness :
  exists px',
    round_and_clip_image 1%nat [OList [PInt 300; PInt 7]; ODict (mk_image 1 2 0%nat)]
    = (Ok 1%nat,
       <[0%nat := OList px']> [OList [PInt 300; PInt 7]; ODict (mk_image 1 2 0%nat)]) /\
    length px' = length [PInt 300; PInt 7] /\
    (px' = [PInt 300; PInt 7] <-> forall v, v ∈ [PInt 300; PInt 7] -> valid_pixel v).
Proof.
  apply (round_and_clip_image_in_place
           [OList [PInt 300; PInt 7]; ODict (mk_image 1 2 0%nat)] 1%nat 0%nat 1 2).
  - reflexivity.
  - reflexivity.
  - intros v Hv. apply list_elem_of_In in Hv. simpl in Hv.
    destruct Hv as [<-|[<-|[]]]; eexists; reflexivity.
Defined.

Lemma quantize_valid v q : quantize v = Ok q -> valid_pixel q.
Proof.
  unfold quantize. destruct (py_round v) as [r|e]; cbn [rbind]; [|discriminate].
  intros [= <-]. eexists. split; [reflexivity|].
  destruct (Z.ltb_spec r 0); [lia|]. destruct (Z.gtb_spec r 255); lia.
Qed.

Lemma collect_Forall {A B} (f : A -> result B) (P : B -> Prop) xs :
  (forall x y, f x = Ok y -> P y) -> Forall P (fst (collect f xs)).
Proof.
  intros Hf. induction xs as [|x xs IH]; cbn; [constructor|].
  destruct (f x) eqn:Hfx; cbn; [|constructor].
  destruct (collect f xs); cbn in *. constructor; eauto.
Qed.

(** Whatever the outcome, [round_and_clip_image] writes to the pixel list
    of its argument only; when it returns, it returns its argument and the
    list holds valid pixels. *)
Lemma round_and_clip_image_outcome (h : heap) (i p : loc) (hh ww : Z)
      (px : list num) r h' :
  h !! i = Some (ODict (mk_image hh ww p)) ->
  h !! p = Some (OList px) ->
  round_and_clip_image i h = (r, h') ->
  exists px',
    h' = <[p := OList px']> h /\
    (forall l, r = Ok l -> l = i /\ Forall valid_pixel px' /\ length px' = length px).
Proof.
  intros Hi Hp. rewrite (round_and_clip_image_run h i p hh ww px Hi Hp).
  intros [= <- <-]. eexists. split; [reflexivity|].
  intros l Hl. destruct (snd (collect quantize px)) as [[]|e] eqn:HC; [|discriminate].
  injection Hl as <-. pose proof (collect_ok_length quantize px HC) as Hlen.
  rewrite Hlen, drop_all, app_nil_r.
  repeat split; [|assumption]. apply collect_Forall. apply quantize_valid.
Qed.

Lemma prefix_insert_ge {A} (l1 l2 : list A) (k : nat) (x : A) :
  l1 `prefix_of` l2 -> (length l1 <= k)%nat -> l1 `prefix_of` <[k := x]> l2.
Proof.
  intros [extra ->] Hk. rewrite insert_app_r_alt by assumption.
  now exists (<[(k - length l1)%nat := x]> extra).
Qed.

Lemma prefix_out_store h0 h hh ww vs :
  h0 `prefix_of` h -> h0 `prefix_of` out_store h hh ww vs.
Proof.
  intros Hp. unfold out_store. now apply prefix_app_r.
Qed.

Lemma prefix_image_at h h' i hh ww px :
  h `prefix_of` h' -> image_at h i hh ww px -> image_at h' i hh ww px.
Proof.
  intros [extra ->] (p & Hi & Hp). exists p.
  split; (rewrite lookup_app_l; [assumption | eapply lookup_lt_Some; eauto]).
Qed.

Lemma length_out_store h hh ww vs : length (out_store h hh ww vs) = S (S (length h)).
Proof. unfold out_store. rewrite length_app. cbn. lia. Qed.

(** ** Filters *)

(** [apply_per_pixel] builds a new image whose pixels are [func] of the
    pixels read at each coordinate. *)
Lemma apply_per_pixel_run h i hh ww px func :
  image_at h i hh ww px ->
  let C := collect (fun xy => rbind (py_getitem px (in_bound hh (fst xy) * ww
                                                    + in_bound ww (snd xy))) func)
             (list_prod (range hh) (range ww)) in
  apply_per_pixel i func h
  = (status (snd C) (S (length h)), out_store h hh ww (fst C)).
Proof.
  intros Himg C. pose proof Himg as (p & Hi & Hp).
  unfold apply_per_pixel, bind.
  rewrite (getitem_height_run h i _ Hi), (getitem_width_run h i _ Hi).
  cbn [height width]. rewrite new_image_run.
  assert (Hi' : forall vs, out_store h hh ww vs !! i = Some (ODict (mk_image hh ww p)))
    by (intros; now apply out_store_old).
  rewrite (getitem_height_run _ i _ (Hi' [])). cbn [height].
  rewrite (fill_loop2 (out_store h hh ww)
             (fun xy => rbind (py_getitem px (in_bound hh (fst xy) * ww
                                              + in_bound ww (snd xy))) func)
             _ (range ww)).
  - fold C. cbn [app]. destruct (snd C) as [[]|e]; reflexivity.
  - intros x _ vs. unfold bind.
    rewrite (getitem_width_run _ i _ (Hi' vs)). cbn [width].
    apply (fill_loop (out_store h hh ww)
             (fun y => rbind (py_getitem px (in_bound hh x * ww + in_bound ww y)) func)).
    intros y _ ws. unfold bind.
    rewrite (get_pixel_run _ i _ (Hi' ws) px x y
               (out_store_old h hh ww ws _ _ Hp)).
    cbn [height width fst snd]. unfold lift.
    destruct (py_getitem px _) as [c|e]; cbn [rbind]; [|reflexivity].
    destruct (func c) as [v|e]; [|reflexivity].
    apply set_pixel_run.
Qed.

Lemma invert_valid_pixel c v :
  valid_pixel c -> py_sub (PInt 255) c = Ok v -> valid_pixel v.
Proof.
  intros (z & -> & Hz). cbn. intros [= <-].
  exists (255 - z). split; [reflexivity | lia].
Qed.

(** The outcome of [inverted]: the store only grows, and a returned image
    is new, has the dimensions of the input and, when the input pixels are
    valid, valid pixels. *)
Lemma inverted_outcome h i hh ww px r h' :
  image_at h i hh ww px ->
  inverted i h = (r, h') ->
  h `prefix_of` h' /\
  (forall l, r = Ok l ->
     exists px', image_at h' l hh ww px' /\
                 (Forall valid_pixel px -> Forall valid_pixel px')).
Proof.
  intros Himg. unfold inverted. rewrite (apply_per_pixel_run h i hh ww px _ Himg).
  cbv zeta. intros [= <- <-]. split; [apply prefix_out_store; reflexivity|].
  intros l Hl. eexists. split.
  - destruct (snd _) as [[]|e]; [|discriminate]. injection Hl as <-.
    apply out_store_image.
  - intros Hpx. apply collect_Forall. intros xy v.
    destruct (py_getitem px _) as [c|e] eqn:Hc; cbn [rbind]; [|discriminate].
    apply invert_valid_pixel. rewrite Forall_forall in Hpx. apply Hpx.
    eapply py_getitem_elem_of; eauto.
Qed.

Lemma bind_inv {A B} (m : M A) (k : A -> M B) (h : heap) r h' :
  bind m k h = (r, h') ->
  (exists a h1, m h = (Ok a, h1) /\ k a h1 = (r, h')) \/
  (exists e, m h = (Raise e, h') /\ r = Raise e).
Proof.
  unfold bind. destruct (m h) as [[a|e] h1]; intros Hrun.
  - left. eauto.
  - right. injection Hrun as <- <-. eauto.
Qed.

(** Peel the first statement off a run. *)
Ltac peel H :=
  let a := fresh "a" in
  let h1 := fresh "h" in
  let Hm := fresh "Hm" in
  let e := fresh "e" in
  let Heq := fresh "Heq" in
  apply bind_inv in H as [(a & h1 & Hm & H) | (e & Hm & Heq)];
  [| match type of Heq with ?x = _ => first [is_var x; subst x | idtac] end].

Lemma filter_outcome_raise h hh ww e h' :
  h `prefix_of` h' -> filter_outcome h hh ww (Raise e) h'.
Proof. intros Hp. split; [assumption | discriminate]. Qed.

(** The common last steps of [sharpened] and [edges]: the new pixel list
    is allocated, bound to the ['pixels'] key of the fresh dictionary [res]
    and quantized. *)
Lemma finish_filter (h0 h : heap) (res p0 : loc) (hh ww : Z) (new : list num) r h' :
  h0 `prefix_of` h ->
  (length h0 <= res)%nat ->
  h !! res = Some (ODict (mk_image hh ww p0)) ->
  (let! nl := alloc (OList new) in
   exec setitem_pixels res nl in
   round_and_clip_image res) h = (r, h') ->
  filter_outcome h0 hh ww r h'.
Proof.
  intros Hpre Hres Hd Hrun.
  assert (Hlt : (res < length h)%nat) by (eapply lookup_lt_Some; eauto).
  unfold bind at 1 in Hrun. unfold alloc in Hrun.
  unfold bind at 1 in Hrun. unfold setitem_pixels, bind, read_dict, write in Hrun.
  rewrite lookup_app_l, Hd in Hrun by assumption. cbn [height width] in Hrun.
  set (h4 := <[res := ODict (mk_image hh ww (length h))]> (h ++ [OList new])) in Hrun.
  assert (H4d : h4 !! res = Some (ODict (mk_image hh ww (length h)))).
  { unfold h4. apply list_lookup_insert_eq. rewrite length_app. lia. }
  assert (H4l : h4 !! length h = Some (OList new)).
  { unfold h4. rewrite list_lookup_insert_ne by lia.
    rewrite lookup_app_r, Nat.sub_diag by lia. reflexivity. }
  destruct (round_and_clip_image_outcome h4 res (length h) hh ww new r h' H4d H4l Hrun)
    as (px' & -> & Hok).
  assert (Hlen4 : length h4 = S (length h)).
  { unfold h4. rewrite length_insert, length_app. cbn. lia. }
  split.
  - apply prefix_insert_ge; [|apply prefix_length in Hpre; lia].
    unfold h4. apply prefix_insert_ge; [|assumption].
    now apply prefix_app_r.
  - intros l Hl. destruct (Hok l Hl) as (-> & Hvalid & _).
    exists px'. split; [|assumption].
    exists (length h). split.
    + rewrite list_lookup_insert_ne by lia. exact H4d.
    + apply list_lookup_insert_eq. lia.
Qed.

Lemma blurred_outcome h i hh ww px n r h' :
  image_at h i hh ww px ->
  blurred i n true h = (r, h') ->
  filter_outcome h hh ww r h'.
Proof.
  intros Himg Hrun. unfold blurred in Hrun.
  peel Hrun; unfold lift in Hm.
  2:{ injection Hm as _ <-. now apply filter_outcome_raise. }
  injection Hm as _ <-.
  peel Hrun; rewrite (correlate_run h i hh ww px a Himg) in Hm; cbv zeta in Hm.
  2:{ injection Hm as _ <-. apply filter_outcome_raise, prefix_out_store. reflexivity. }
  injection Hm as Hst <-.
  destruct (snd (collect _ _)) as [[]|e] in Hst; [|discriminate].
  injection Hst as <-.
  destruct (round_and_clip_image_outcome _ _ _ _ _ _ r h'
              (out_store_dict h hh ww _) (out_store_list h hh ww _) Hrun)
    as (px' & -> & Hok).
  rewrite out_store_write. split; [apply prefix_out_store; reflexivity|].
  intros l Hl. destruct (Hok l Hl) as (-> & Hvalid & _).
  exists px'. split; [apply out_store_image | assumption].
Qed.

Lemma blurred_uncorrected_outcome h i hh ww px n r h' :
  image_at h i hh ww px ->
  blurred i n false h = (r, h') ->
  (exists e, r = Raise e /\ (h' = h \/ exists vs, h' = out_store h hh ww vs)) \/
  (exists vs, r = Ok (S (length h)) /\ h' = out_store h hh ww vs).
Proof.
  intros Himg. unfold blurred, bind, lift.
  destruct (get_blur_kernel n) as [kernel|e]; [|intros [= <- <-]; eauto].
  rewrite (correlate_run h i hh ww px kernel Himg). cbv zeta.
  destruct (snd (collect _ _)) as [[]|e]; cbn [status]; unfold ret;
    intros [= <- <-]; eauto 6.
Qed.

Lemma sharpened_outcome h i hh ww px n r h' :
  image_at h i hh ww px ->
  sharpened i n h = (r, h') ->
  filter_outcome h hh ww r h'.
Proof.
  intros Himg Hrun. pose proof Himg as (p & Hi & Hp). unfold sharpened in Hrun.
  peel Hrun; rewrite (getitem_height_run h i _ Hi) in Hm; [|discriminate].
  injection Hm as <- <-.
  peel Hrun; rewrite (getitem_width_run h i _ Hi) in Hm; [|discriminate].
  injection Hm as <- <-. cbn [height width] in Hrun.
  peel Hrun; rewrite new_image_run in Hm; [|discriminate].
  injection Hm as <- <-.
  set (h1 := out_store h hh ww []) in *.
  assert (Hpre1 : h `prefix_of` h1) by (apply prefix_out_store; reflexivity).
  pose proof (prefix_image_at h h1 i hh ww px Hpre1 Himg) as Himg1.
  peel Hrun;
    rewrite (getitem_pixels_run h1 i _ (out_store_old h hh ww [] _ _ Hi)) in Hm;
    [|discriminate].
  injection Hm as <- <-. cbn [pixels] in Hrun.
  peel Hrun; apply (blurred_uncorrected_outcome h1 i hh ww px n _ _ Himg1) in Hm.
  2:{ destruct Hm as [(e' & _ & [->|[vs ->]])|(vs & Hr & _)]; [| |discriminate];
        apply filter_outcome_raise; [exact Hpre1|].
      etransitivity; [exact Hpre1 | apply prefix_out_store; reflexivity]. }
  destruct Hm as [(e' & Hr & _)|(vs & Hr & ->)]; [discriminate|].
  injection Hr as ->.
  set (h2 := out_store h1 hh ww vs) in *.
  assert (Hpre2 : h `prefix_of` h2)
    by (etransitivity; [exact Hpre1 | apply prefix_out_store; reflexivity]).
  peel Hrun; rewrite (getitem_pixels_run h2 _ _ (out_store_dict h1 hh ww vs)) in Hm;
    [|discriminate].
  injection Hm as <- <-. cbn [pixels] in Hrun.
  peel Hrun; unfold read_list in Hm;
    destruct (h2 !! p) as [[|]|]; try discriminate;
    injection Hm as _ <-; try (now apply filter_outcome_raise).
  peel Hrun; unfold read_list in Hm;
    destruct (h2 !! length h1) as [[|]|]; try discriminate;
    injection Hm as _ <-; try (now apply filter_outcome_raise).
  peel Hrun; unfold lift in Hm; injection Hm as _ <-;
    [|now apply filter_outcome_raise].
  eapply (finish_filter h h2 (S (length h)) (length h) hh ww);
    [exact Hpre2 | lia | | exact Hrun].
  unfold h2. apply out_store_old. unfold h1. apply out_store_dict.
Qed.

Lemma edges_outcome h i hh ww px r h' :
  image_at h i hh ww px ->
  edges i h = (r, h') ->
  filter_outcome h hh ww r h'.
Proof.
  intros Himg Hrun. pose proof Himg as (p & Hi & Hp). unfold edges in Hrun.
  peel Hrun; unfold read_dict in Hm; rewrite Hi in Hm; [|discriminate].
  injection Hm as <- <-.
  peel Hrun; unfold alloc in Hm; [|discriminate].
  injection Hm as <- <-.
  set (h1 := h ++ [ODict (mk_image hh ww p)]) in *.
  assert (Hpre1 : h `prefix_of` h1) by (now apply prefix_app_r).
  assert (Hd1 : h1 !! length h = Some (ODict (mk_image hh ww p))).
  { unfold h1. rewrite lookup_app_r, Nat.sub_diag by lia. reflexivity. }
  pose proof (prefix_image_at h h1 i hh ww px Hpre1 Himg) as Himg1.
  peel Hrun; rewrite (correlate_run h1 i hh ww px _ Himg1) in Hm; cbv zeta in Hm.
  2:{ injection Hm as _ <-. apply filter_outcome_raise.
      etransitivity; [exact Hpre1 | apply prefix_out_store; reflexivity]. }
  injection Hm as Hst <-.
  destruct (snd (collect _ _)) as [[]|e] in Hst; [|discriminate].
  injection Hst as <-.
  set (xs := fst (collect (fun xy => correlate_pixel hh ww px Kx (fst xy) (snd xy)) _)) in *.
  set (h2 := out_store h1 hh ww xs) in *.
  assert (Hpre12 : h1 `prefix_of` h2) by (apply prefix_out_store; reflexivity).
  pose proof (prefix_image_at h1 h2 i hh ww px Hpre12 Himg1) as Himg2.
  peel Hrun; rewrite (correlate_run h2 i hh ww px _ Himg2) in Hm; cbv zeta in Hm.
  2:{ injection Hm as _ <-. apply filter_outcome_raise.
      etransitivity; [exact Hpre1|].
      etransitivity; [exact Hpre12 | apply prefix_out_store; reflexivity]. }
  injection Hm as Hst <-.
  destruct (snd (collect _ _)) as [[]|e] in Hst; [|discriminate].
  injection Hst as <-.
  set (ys := fst (collect (fun xy => correlate_pixel hh ww px Ky (fst xy) (snd xy)) _)) in *.
  set (h3 := out_store h2 hh ww ys) in *.
  assert (Hpre23 : h2 `prefix_of` h3) by (apply prefix_out_store; reflexivity).
  assert (Hpre3 : h `prefix_of` h3)
    by (etransitivity; [exact Hpre1 | etransitivity; eassumption]).
  peel Hrun;
    rewrite (getitem_pixels_run h3 _ _
               (out_store_old h2 hh ww ys _ _ (out_store_dict h1 hh ww xs))) in Hm;
    [|discriminate].
  injection Hm as <- <-. cbn [pixels] in Hrun.
  peel Hrun; rewrite (getitem_pixels_run h3 _ _ (out_store_dict h2 hh ww ys)) in Hm;
    [|discriminate].
  injection Hm as <- <-. cbn [pixels] in Hrun.
  peel Hrun; unfold read_list in Hm;
    destruct (h3 !! length h1) as [[|]|]; try discriminate;
    injection Hm as _ <-; try (now apply filter_outcome_raise).
  peel Hrun; unfold read_list in Hm;
    destruct (h3 !! length h2) as [[|]|]; try discriminate;
    injection Hm as _ <-; try (now apply filter_outcome_raise).
  peel Hrun; unfold lift in Hm; injection Hm as _ <-;
    [|now apply filter_outcome_raise].
  eapply (finish_filter h h3 (length h) p hh ww);
    [exact Hpre3 | lia | | exact Hrun].
  unfold h3, h2. now do 2 apply out_store_old.
Qed.

(** C6: every public filter, whether it returns or raises, leaves every
    object that existed before the call as it was: the store after the call
    extends the store before it, so the input image has the same height,
    width and pixel sequence. *)
Theorem filters_do_not_mutate (F : filter) (h : heap) (i : loc) (hh ww : Z)
        (px : list num) :
  image_at h i hh ww px ->
  h `prefix_of` snd (run_filter F i h) /\
  image_at (snd (run_filter F i h)) i hh ww px.
Proof.
  intros Himg.
  assert (Hpre : h `prefix_of` snd (run_filter F i h)).
  { destruct (run_filter F i h) as [r h'] eqn:Hrun. cbn [snd].
    destruct F as [|n|n|]; cbn [run_filter] in Hrun.
    - now destruct (inverted_outcome h i hh ww px r h' Himg Hrun).
    - now destruct (blurred_outcome h i hh ww px n r h' Himg Hrun).
    - now destruct (sharpened_outcome h i hh ww px n r h' Himg Hrun).
    - now destruct (edges_outcome h i hh ww px r h' Himg Hrun). }
  split; [assumption|]. eapply prefix_image_at; eassumption.
Qed.

Lemma filters_do_not_mutate_witness :
  [OList (map PInt [10; 20; 30; 40]); ODict (mk_image 2 2 0%nat)]
    `prefix_of` snd (run_filter (Sharpened 3) 1%nat
                       [OList (map PInt [10; 20; 30; 40]); ODict (mk_image 2 2 0%nat)]) /\
  image_at (snd (run_filter (Sharpened 3) 1%nat
                   [OList (map PInt [10; 20; 30; 40]); ODict (mk_image 2 2 0%nat)]))
    1%nat 2 2 (map PInt [10; 20; 30; 40]).
Proof.
  apply (filters_do_not_mutate (Sharpened 3)
           [OList (map PInt [10; 20; 30; 40]); ODict (mk_image 2 2 0%nat)] 1%nat 2 2).
  exists 0%nat. split; reflexivity.
Defined.

(** C7: an image returned by a public filter on an input whose pixels are
    integers in [0, 255] has the dimensions of the input and all its pixels
    are integers in [0, 255]. *)
Theorem filter_output_valid (F : filter) (h : heap) (i : loc) (hh ww : Z)
        (px : list num) (r : loc) (h' : heap) :
  image_at h i hh ww px ->
  Forall valid_pixel px ->
  run_filter F i h = (Ok r, h') ->
  exists px', image_at h' r hh ww px' /\ Forall valid_pixel px'.
Proof.
  intros Himg Hpx Hrun.
  destruct F as [|n|n|]; cbn [run_filter] in Hrun.
  - destruct (inverted_outcome h i hh ww px _ h' Himg Hrun) as [_ Hok].
    destruct (Hok r eq_refl) as (px' & Himg' & Hv). eauto.
  - destruct (blurred_outcome h i hh ww px n _ h' Himg Hrun) as [_ Hok].
    exact (Hok r eq_refl).
  - destruct (sharpened_outcome h i hh ww px n _ h' Himg Hrun) as [_ Hok].
    exact (Hok r eq_refl).
  - destruct (edges_outcome h i hh ww px _ h' Himg Hrun) as [_ Hok].
    exact (Hok r eq_refl).
Qed.

Lemma filter_output_valid_witness :
  exists px',
    image_at (snd (run_filter Edges 1%nat
                     [OList (map PInt [10; 20; 30; 40]); ODict (mk_image 2 2 0%nat)]))
      2%nat 2 2 px' /\
    Forall valid_pixel px'.
Proof.
  apply (filter_output_valid Edges
           [OList (map PInt [10; 20; 30; 40]); ODict (mk_image 2 2 0%nat)]
           1%nat 2 2 (map PInt [10; 20; 30; 40]) 2%nat).
  - exists 0%nat. split; reflexivity.
  - repeat constructor; eexists; (split; [reflexivity | lia]).
  - vm_compute. reflexivity.
Defined.

(** ** Reading a whole image, and the 1 by 1 blur *)

Lemma in_bound_id dim s : 0 <= s < dim -> in_bound dim s = s.
Proof.
  intros Hs. unfold in_bound.
  destruct (Z.leb_spec s (-1)); [lia|].
  destruct (Z.geb_spec s dim); lia.
Qed.

Lemma py_getitem_nonneg {A} (l : list A) (i : Z) (v : A) :
  0 <= i -> py_getitem l i = Ok v -> l !! Z.to_nat i = Some v.
Proof.
  intros Hi. unfold py_getitem.
  destruct (Z.ltb_spec i 0); [lia|].
  destruct ((0 <=? i) && _); [|discriminate].
  destruct (l !! Z.to_nat i); [|discriminate]. now intros [= <-].
Qed.

(** Reading a well-formed image at all its coordinates, in row-major
    order, gives its pixel list. *)
Lemma collect_read_all (hh ww : Z) (px : list num) :
  well_formed hh ww px ->
  collect (fun xy => py_getitem px (in_bound hh (fst xy) * ww + in_bound ww (snd xy)))
    (list_prod (range hh) (range ww)) = (px, Ok tt).
Proof.
  intros (Hh & Hw & Hlen).
  set (f := fun xy : Z * Z =>
              py_getitem px (in_bound hh (fst xy) * ww + in_bound ww (snd xy))).
  assert (Hf : forall x y, 0 <= x < hh -> 0 <= y < ww ->
                exists v, f (x, y) = Ok v /\ px !! Z.to_nat (x * ww + y) = Some v).
  { intros x y Hx Hy. unfold f. cbn [fst snd].
    rewrite !in_bound_id by assumption.
    destruct (py_getitem_lookup px (x * ww + y)) as (v & Hv & Hget); [nia|]. eauto. }
  assert (HC : snd (collect f (list_prod (range hh) (range ww))) = Ok tt).
  { apply collect_all_ok. intros [x y] Hxy. apply elem_of_coords in Hxy.
    destruct (Hf x y) as (v & Hv & _); try apply Hxy. eauto. }
  pose proof (collect_ok_length f _ HC) as HL.
  rewrite length_list_prod, !length_range in HL.
  destruct (collect f (list_prod (range hh) (range ww))) as [vs st] eqn:E.
  cbn [fst snd] in *. subst st. f_equal.
  apply list_eq. intros k.
  destruct (Nat.lt_ge_cases k (length px)) as [Hk|Hk].
  - assert (Hww : 0 < ww) by nia.
    pose proof (Z.div_mod (Z.of_nat k) ww ltac:(lia)) as Hdm.
    pose proof (Z.mod_pos_bound (Z.of_nat k) ww Hww) as Hmod.
    assert (Hx : 0 <= Z.of_nat k / ww < hh).
    { split; [apply Z.div_pos; lia|]. apply Z.div_lt_upper_bound; lia. }
    pose proof (coords_lookup hh ww _ _ Hx Hmod) as Hlk.
    replace (Z.to_nat (Z.of_nat k / ww * ww + Z.of_nat k mod ww)) with k in Hlk by lia.
    assert (HC' : snd (collect f (list_prod (range hh) (range ww))) = Ok tt)
      by now rewrite E.
    destruct (collect_ok_lookup f _ _ _ HC' Hlk) as (v & Hv & Hvs).
    rewrite E in Hvs. cbn [fst] in Hvs. rewrite Hvs.
    destruct (Hf _ _ Hx Hmod) as (v' & Hv' & Hpx).
    replace (Z.to_nat (Z.of_nat k / ww * ww + Z.of_nat k mod ww)) with k in Hpx by lia.
    congruence.
  - rewrite !lookup_ge_None_2; [reflexivity | assumption | nia].
Qed.

Lemma collect_rbind {A B C} (f : A -> result B) (g : B -> result C) xs ys :
  collect f xs = (ys, Ok tt) ->
  collect (fun a => rbind (f a) g) xs = collect g ys.
Proof.
  revert ys. induction xs as [|x xs IH]; intros ys; cbn [collect].
  - now intros [= <-].
  - destruct (f x) as [y|e]; [|discriminate]. cbn [rbind].
    destruct (collect f xs) as [ys' st] eqn:E. intros [= <- ->].
    cbn [collect]. now rewrite (IH ys' eq_refl).
Qed.

(** On a well-formed image with valid pixels [inverted] returns. *)
Lemma inverted_returns h i hh ww px :
  image_at h i hh ww px -> well_formed hh ww px -> Forall valid_pixel px ->
  inverted i h
  = (Ok (S (length h)),
     out_store h hh ww (fst (collect (fun c => py_sub (PInt 255) c) px))) /\
  snd (collect (fun c => py_sub (PInt 255) c) px) = Ok tt.
Proof.
  intros Himg Hwf Hpx. unfold inverted.
  rewrite (apply_per_pixel_run h i hh ww px _ Himg). cbv zeta.
  rewrite (collect_rbind _ _ _ px (collect_read_all hh ww px Hwf)).
  assert (Hok : snd (collect (fun c => py_sub (PInt 255) c) px) = Ok tt).
  { apply collect_all_ok. intros v Hv. rewrite Forall_forall in Hpx.
    destruct (Hpx v Hv) as (z & -> & _). cbn. eauto. }
  rewrite Hok. auto.
Qed.

Lemma get_blur_kernel_1 : get_blur_kernel 1 = Ok [PFloat float_one].
Proof. reflexivity. Qed.

(** The value [correlate] computes with a one-weight kernel. *)
Lemma correlate_pixel_1 hh ww px k x y :
  correlate_pixel hh ww px [k] x y
  = rbind (py_getitem px (in_bound hh x * ww + in_bound ww y)) (fun c =>
    rbind (py_mul k c) (fun t => py_add (PFloat (S754_zero false)) t)).
Proof.
  unfold correlate_pixel. cbn [length].
  change (Z.sqrt (Z.of_nat 1)) with 1. change ((1 - 1) `quot` 2) with 0.
  change (range 1) with [0]. cbn [rfold].
  change (py_getitem [k] (0 * 1 + 0)) with (Ok k). cbn [rbind].
  replace (x - 0 + 0) with x by lia. replace (y - 0 + 0) with y by lia.
  destruct (py_getitem px _) as [c|e]; cbn [rbind]; [|reflexivity].
  destruct (py_mul k c) as [t|e]; cbn [rbind]; [|reflexivity].
  destruct (py_add _ t); reflexivity.
Qed.

Lemma blur_1_check_all : forallb blur_1_check (range 256) = true.
Proof. vm_compute. reflexivity. Qed.

Lemma blur_1_quantize c :
  valid_pixel c -> exists t, blur_1 c = Ok t /\ quantize t = Ok c.
Proof.
  intros (z & -> & Hz).
  pose proof blur_1_check_all as Hall. rewrite forallb_forall in Hall.
  specialize (Hall z). unfold blur_1_check in Hall.
  destruct (blur_1 (PInt z)) as [t|e]; cbn [rbind] in Hall.
  - exists t. split; [reflexivity|].
    destruct (quantize t) as [[r|f]|e].
    + f_equal. f_equal. apply Z.eqb_eq. apply Hall.
      apply list_elem_of_In, elem_of_range. lia.
    + discriminate Hall. apply list_elem_of_In, elem_of_range. lia.
    + discriminate Hall. apply list_elem_of_In, elem_of_range. lia.
  - discriminate Hall. apply list_elem_of_In, elem_of_range. lia.
Qed.

Lemma collect_blur_1 (px : list num) :
  Forall valid_pixel px ->
  exists vs, collect blur_1 px = (vs, Ok tt) /\ collect quantize vs = (px, Ok tt).
Proof.
  induction 1 as [|c px Hc _ (vs & Hvs & Hq)].
  - exists []. split; reflexivity.
  - destruct (blur_1_quantize c Hc) as (t & Ht & Hqt).
    exists (t :: vs). cbn [collect]. rewrite Ht, Hvs, Hqt, Hq. split; reflexivity.
Qed.

Lemma collect_ext {A B} (f g : A -> result B) xs :
  (forall a, f a = g a) -> collect f xs = collect g xs.
Proof.
  intros Hfg. induction xs as [|x xs IH]; cbn [collect]; [reflexivity|].
  now rewrite Hfg, IH.
Qed.

(** C8: on a well-formed image whose pixels are integers in [0, 255],
    [blurred(I, 1)] and [round_and_clip_image(I)] both return, and the
    images they return have the same height, width and pixel sequence
    (those of [I]). *)
Theorem blurred_1_is_quantized (h : heap) (i : loc) (hh ww : Z) (px : list num) :
  image_at h i hh ww px ->
  well_formed hh ww px ->
  Forall valid_pixel px ->
  exists r h1 h2 out,
    blurred i 1 true h = (Ok r, h1) /\
    round_and_clip_image i h = (Ok i, h2) /\
    image_at h1 r hh ww out /\
    image_at h2 i hh ww out /\
    out = px.
Proof.
  intros Himg Hwf Hpx. pose proof Himg as (p & Hi & Hp).
  destruct (collect_blur_1 px Hpx) as (vs & Hvs & Hq).
  assert (Hlen : length vs = length px).
  { pose proof (collect_ok_length blur_1 px) as HL. rewrite Hvs in HL.
    now apply HL. }
  exists (S (length h)), (out_store h hh ww px), h, px.
  split; [|split; [|split; [|split]]].
  - unfold blurred, bind, lift. rewrite get_blur_kernel_1.
    rewrite (correlate_run h i hh ww px _ Himg). cbv zeta.
    rewrite (collect_ext _
               (fun xy => rbind (py_getitem px (in_bound hh (fst xy) * ww
                                                + in_bound ww (snd xy))) blur_1))
      by (intros [x y]; apply correlate_pixel_1).
    rewrite (collect_rbind _ _ _ px (collect_read_all hh ww px Hwf)), Hvs.
    cbn [fst snd status].
    rewrite (round_and_clip_image_run _ _ _ hh ww vs
               (out_store_dict h hh ww vs) (out_store_list h hh ww vs)).
    rewrite Hq. cbn [fst snd status].
    rewrite out_store_write, drop_ge, app_nil_r by lia. reflexivity.
  - rewrite (round_and_clip_image_run h i p hh ww px Hi Hp).
    rewrite (collect_quantize_valid px) by (now apply Forall_forall).
    cbn [fst snd status]. rewrite drop_all, app_nil_r.
    now rewrite list_insert_id.
  - apply out_store_image.
  - exact Himg.
  - reflexivity.
Qed.

Lemma blurred_1_is_quantized_witness :
  exists r h1 h2 out,
    blurred 1%nat 1 true [OList (map PInt [0; 255; 30; 40]); ODict (mk_image 2 2 0%nat)]
      = (Ok r, h1) /\
    round_and_clip_image 1%nat
      [OList (map PInt [0; 255; 30; 40]); ODict (mk_image 2 2 0%nat)] = (Ok 1%nat, h2) /\
    image_at h1 r 2 2 out /\
    image_at h2 1%nat 2 2 out /\
    out = map PInt [0; 255; 30; 40].
Proof.
  apply (blurred_1_is_quantized
           [OList (map PInt [0; 255; 30; 40]); ODict (mk_image 2 2 0%nat)] 1%nat 2 2).
  - exists 0%nat. split; reflexivity.
  - repeat split; cbn; lia.
  - repeat constructor; eexists; (split; [reflexivity | lia]).
Defined.

(** ** The centered-pixel scenario *)

(** C9: on the centered-pixel image [blurred(I, 3)] returns the image that
    is [round(255/9)] on the 3 by 3 block around (5, 5) and 0 elsewhere, and
    [blurred(I, 5)] the image that is [round(255/25)] on the 5 by 5 block
    and 0 elsewhere. *)
Theorem blurred_centered_pixel :
  image_at centered 1%nat 11 11 centered_pixel /\
  centered_pixel !! Z.to_nat (5 * 11 + 5) = Some (PInt 255) /\
  exists elem1 elem2 r1 h1 r2 h2,
    rbind (py_truediv_int 255 9) py_round = Ok elem1 /\
    rbind (py_truediv_int 255 25) py_round = Ok elem2 /\
    blurred 1%nat 3 true centered = (Ok r1, h1) /\
    image_at h1 r1 11 11 (centered_block 1 elem1) /\
    blurred 1%nat 5 true centered = (Ok r2, h2) /\
    image_at h2 r2 11 11 (centered_block 2 elem2).
Proof.
  split; [exists 0%nat; split; reflexivity|]. split; [reflexivity|].
  exists 28, 10, 3%nat, (snd (blurred 1%nat 3 true centered)),
         3%nat, (snd (blurred 1%nat 5 true centered)).
  split; [reflexivity|]. split; [reflexivity|].
  split; [vm_compute; reflexivity|].
  split; [exists 2%nat; split; vm_compute; reflexivity|].
  split; [vm_compute; reflexivity|].
  exists 2%nat; split; vm_compute; reflexivity.
Qed.

(** ** Further properties of the accessors *)

Lemma in_bound_clamp dim s :
  1 <= dim -> in_bound dim s = Z.max 0 (Z.min (dim - 1) s).
Proof.
  intros Hdim. unfold in_bound. destruct (Z.leb_spec s (-1)); [lia|].
  destruct (Z.geb_spec s dim); lia.
Qed.

(** For a positive dimension [in_bound] is the clamp to [0, dim - 1]: it is
    the point of the range nearest to the coordinate, and it fixes the
    points of the range. *)
Theorem in_bound_nearest (dim s : Z) :
  1 <= dim ->
  in_bound dim s = Z.max 0 (Z.min (dim - 1) s) /\
  in_bound dim (in_bound dim s) = in_bound dim s /\
  (forall c, 0 <= c < dim -> Z.abs (in_bound dim s - s) <= Z.abs (c - s)).
Proof.
  intros Hdim. pose proof (in_bound_range dim s Hdim) as Hr.
  pose proof (in_bound_clamp dim s Hdim) as Hf.
  split; [exact Hf|]. split; [now apply in_bound_id|].
  intros c Hc. rewrite Hf. lia.
Qed.

Lemma in_bound_nearest_witness :
  in_bound 11 14 = Z.max 0 (Z.min (11 - 1) 14) /\
  in_bound 11 (in_bound 11 14) = in_bound 11 14 /\
  (forall c, 0 <= c < 11 -> Z.abs (in_bound 11 14 - 14) <= Z.abs (c - 14)).
Proof.
  apply (in_bound_nearest 11 14). lia.
Defined.

(** Edge replication: on a well-formed image with at least one pixel,
    [get_pixel] at any coordinates is [get_pixel] at the coordinates clamped
    into the image, and inside the image it reads index [x * width + y]. *)
Theorem get_pixel_replicates_edges (h : heap) (i : loc) (hh ww : Z)
        (px : list num) (x y : Z) :
  image_at h i hh ww px ->
  1 <= hh -> 1 <= ww -> Z.of_nat (length px) = hh * ww ->
  get_pixel i x y h
  = get_pixel i (Z.max 0 (Z.min (hh - 1) x)) (Z.max 0 (Z.min (ww - 1) y)) h /\
  (0 <= x < hh -> 0 <= y < ww ->
   exists v, px !! Z.to_nat (x * ww + y) = Some v /\ get_pixel i x y h = (Ok v, h)).
Proof.
  intros (p & Hi & Hp) Hh Hw Hlen.
  pose proof (in_bound_clamp hh x Hh) as Hx.
  pose proof (in_bound_clamp ww y Hw) as Hy.
  split.
  - rewrite !(get_pixel_run h i _ Hi px _ _ Hp). cbn [height width].
    rewrite <- Hx, <- Hy.
    rewrite (in_bound_id hh (in_bound hh x)), (in_bound_id ww (in_bound ww y))
      by (apply in_bound_range; assumption).
    reflexivity.
  - intros Hxr Hyr. rewrite (get_pixel_run h i _ Hi px _ _ Hp). cbn [height width].
    rewrite !in_bound_id by assumption.
    destruct (py_getitem_lookup px (x * ww + y)) as (v & Hv & ->); [nia|]. eauto.
Qed.

Lemma get_pixel_replicates_edges_witness :
  get_pixel 1%nat (-7) 40 [OList [PInt 5; PInt 6]; ODict (mk_image 1 2 0%nat)]
  = get_pixel 1%nat (Z.max 0 (Z.min (1 - 1) (-7))) (Z.max 0 (Z.min (2 - 1) 40))
      [OList [PInt 5; PInt 6]; ODict (mk_image 1 2 0%nat)] /\
  (0 <= -7 < 1 -> 0 <= 40 < 2 ->
   exists v, [PInt 5; PInt 6] !! Z.to_nat (-7 * 2 + 40) = Some v /\
             get_pixel 1%nat (-7) 40 [OList [PInt 5; PInt 6]; ODict (mk_image 1 2 0%nat)]
             = (Ok v, [OList [PInt 5; PInt 6]; ODict (mk_image 1 2 0%nat)])).
Proof.
  apply (get_pixel_replicates_edges
           [OList [PInt 5; PInt 6]; ODict (mk_image 1 2 0%nat)] 1%nat 1 2
           [PInt 5; PInt 6] (-7) 40);
    [exists 0%nat; split; reflexivity | lia | lia | reflexivity].
Defined.

Lemma py_getitem_nil {A} (i : Z) : py_getitem (@nil A) i = Raise IndexError.
Proof.
  unfold py_getitem. cbn [length]. change (Z.of_nat 0) with 0.
  destruct (i <? 0).
  - rewrite Z.add_0_r. destruct (Z.leb_spec 0 i), (Z.ltb_spec i 0); cbn; auto; lia.
  - destruct (Z.leb_spec 0 i), (Z.ltb_spec i 0); cbn; auto; lia.
Qed.

(** On an image whose pixel list is empty every [get_pixel] raises
    [IndexError], whatever the declared height and width, and the store is
    left as it was. *)
Theorem get_pixel_empty (h : heap) (i : loc) (hh ww x y : Z) :
  image_at h i hh ww [] ->
  get_pixel i x y h = (Raise IndexError, h).
Proof.
  intros (p & Hi & Hp). rewrite (get_pixel_run h i _ Hi [] x y Hp).
  now rewrite py_getitem_nil.
Qed.

Lemma get_pixel_empty_witness :
  get_pixel 1%nat 0 0 [OList []; ODict (mk_image 3 4 0%nat)]
  = (Raise IndexError, [OList []; ODict (mk_image 3 4 0%nat)]).
Proof.
  apply (get_pixel_empty [OList []; ODict (mk_image 3 4 0%nat)] 1%nat 3 4 0 0).
  exists 0%nat. split; reflexivity.
Defined.

(** ** Further properties of [apply_per_pixel] and [inverted] *)

Lemma collect_ext_in {A B} (f g : A -> result B) xs :
  (forall a, a ∈ xs -> f a = g a) -> collect f xs = collect g xs.
Proof.
  induction xs as [|x xs IH]; intros Hfg; cbn [collect]; [reflexivity|].
  rewrite (Hfg x) by constructor.
  rewrite IH by (intros; apply Hfg; now constructor). reflexivity.
Qed.

Lemma collect_raise_inv {A B} (f : A -> result B) xs e :
  snd (collect f xs) = Raise e -> exists a, a ∈ xs /\ f a = Raise e.
Proof.
  induction xs as [|x xs IH]; cbn [collect]; [discriminate|].
  destruct (f x) as [y|e'] eqn:Hfx.
  - destruct (collect f xs) as [ys r]. cbn [snd] in *. intros Hr.
    destruct (IH Hr) as (a & Ha & Hfa). exists a. split; [now constructor | assumption].
  - cbn [snd]. intros [= <-]. exists x. split; [constructor | assumption].
Qed.

(** Reading an image whose pixel list is at least [height * width] long,
    at all coordinates: the first [height * width] pixels. *)
Lemma collect_read_prefix (hh ww : Z) (px : list num) :
  0 <= hh -> 0 <= ww -> hh * ww <= Z.of_nat (length px) ->
  collect (fun xy => py_getitem px (in_bound hh (fst xy) * ww + in_bound ww (snd xy)))
    (list_prod (range hh) (range ww)) = (take (Z.to_nat (hh * ww)) px, Ok tt).
Proof.
  intros Hh Hw Hlen.
  rewrite <- (collect_read_all hh ww (take (Z.to_nat (hh * ww)) px)).
  - apply collect_ext_in. intros [x y] Hxy. apply elem_of_coords in Hxy.
    cbn [fst snd] in *. rewrite !in_bound_id by lia.
    symmetry. apply py_getitem_take; [nia | lia].
  - repeat split; try assumption. rewrite length_take, Nat.min_l by lia. nia.
Qed.

Lemma apply_per_pixel_prefix (h : heap) (i : loc) (hh ww : Z) (px : list num)
      (func : num -> result num) :
  image_at h i hh ww px ->
  0 <= hh -> 0 <= ww -> hh * ww <= Z.of_nat (length px) ->
  apply_per_pixel i func h
  = (status (snd (collect func (take (Z.to_nat (hh * ww)) px))) (S (length h)),
     out_store h hh ww (fst (collect func (take (Z.to_nat (hh * ww)) px)))).
Proof.
  intros Himg Hh Hw Hlen.
  rewrite (apply_per_pixel_run h i hh ww px func Himg). cbv zeta.
  rewrite (collect_rbind _ func _ _ (collect_read_prefix hh ww px Hh Hw Hlen)).
  reflexivity.
Qed.

(** [apply_per_pixel] is a map: on an image whose pixel list has at least
    [height * width] elements it builds a new image of the same height and
    width from [func] of the first [height * width] pixels, in order, and
    stops with the exception of the first pixel on which [func] raises; the
    values computed before that stay in the abandoned list. *)
Theorem apply_per_pixel_maps (h : heap) (i : loc) (hh ww : Z) (px : list num)
        (func : num -> result num) :
  image_at h i hh ww px ->
  0 <= hh -> 0 <= ww -> hh * ww <= Z.of_nat (length px) ->
  let C := collect func (take (Z.to_nat (hh * ww)) px) in
  apply_per_pixel i func h
  = (status (snd C) (S (length h)), out_store h hh ww (fst C)).
Proof.
  intros Himg Hh Hw Hlen C. subst C.
  pose proof Himg as (p & Hi & Hp).
  rewrite (apply_per_pixel_run h i hh ww px func Himg). cbv zeta.
  assert (Hread : collect (fun xy => py_getitem px (in_bound hh (fst xy) * ww
                                                     + in_bound ww (snd xy)))
                    (list_prod (range hh) (range ww))
                  = (take (Z.to_nat (hh * ww)) px, Ok tt))
    by now apply collect_read_prefix.
  now rewrite (collect_rbind _ func _ _ Hread).
Qed.

Lemma apply_per_pixel_maps_witness :
  let C := collect (fun c => py_add c (PInt 1))
             (take (Z.to_nat (1 * 2)) [PInt 5; PInt 6; PInt 7]) in
  apply_per_pixel 1%nat (fun c => py_add c (PInt 1))
    [OList [PInt 5; PInt 6; PInt 7]; ODict (mk_image 1 2 0%nat)]
  = (status (snd C) 3%nat,
     out_store [OList [PInt 5; PInt 6; PInt 7]; ODict (mk_image 1 2 0%nat)] 1 2 (fst C)).
Proof.
  apply (apply_per_pixel_maps
           [OList [PInt 5; PInt 6; PInt 7]; ODict (mk_image 1 2 0%nat)] 1%nat 1 2
           [PInt 5; PInt 6; PInt 7] (fun c => py_add c (PInt 1)));
    [exists 0%nat; split; reflexivity | lia | lia | cbn; lia].
Defined.

Lemma py_sub_255_total c : exists v, py_sub (PInt 255) c = Ok v.
Proof.
  destruct c as [z|f]; cbn; eauto.
Qed.

Lemma collect_invert_int (px : list num) :
  Forall is_int px ->
  collect (fun c => py_sub (PInt 255) c) px = (map invert_int px, Ok tt).
Proof.
  induction 1 as [|c px [z ->] _ IH]; [reflexivity|].
  cbn [collect map invert_int]. change (py_sub (PInt 255) (PInt z)) with (Ok (PInt (255 - z))).
  now rewrite IH.
Qed.

Lemma inverted_int_run (h : heap) (i : loc) (hh ww : Z) (px : list num) :
  image_at h i hh ww px -> well_formed hh ww px -> Forall is_int px ->
  inverted i h = (Ok (S (length h)), out_store h hh ww (map invert_int px)).
Proof.
  intros Himg (Hh & Hw & Hlen) Hint. unfold inverted.
  rewrite (apply_per_pixel_prefix h i hh ww px _ Himg Hh Hw) by lia.
  rewrite <- Hlen, Nat2Z.id, firstn_all.
  now rewrite (collect_invert_int px Hint).
Qed.

(** On a well-formed image whose pixels are integers [inverted] returns a
    new image of the same height and width whose pixel at each position is
    255 minus the input pixel; the input is not modified. *)
Theorem inverted_subtracts_from_255 (h : heap) (i : loc) (hh ww : Z)
        (px : list num) :
  image_at h i hh ww px -> well_formed hh ww px -> Forall is_int px ->
  exists h',
    inverted i h = (Ok (S (length h)), h') /\
    image_at h' (S (length h)) hh ww (map invert_int px) /\
    image_at h' i hh ww px.
Proof.
  intros Himg Hwf Hint.
  exists (out_store h hh ww (map invert_int px)). split; [|split].
  - now apply inverted_int_run.
  - apply out_store_image.
  - now apply out_store_image_old.
Qed.

Lemma inverted_subtracts_from_255_witness :
  exists h',
    inverted 1%nat [OList (map PInt [18; 69; 142; 216]); ODict (mk_image 1 4 0%nat)]
    = (Ok 3%nat, h') /\
    image_at h' 3%nat 1 4 (map invert_int (map PInt [18; 69; 142; 216])) /\
    image_at h' 1%nat 1 4 (map PInt [18; 69; 142; 216]).
Proof.
  apply (inverted_subtracts_from_255
           [OList (map PInt [18; 69; 142; 216]); ODict (mk_image 1 4 0%nat)] 1%nat 1 4).
  - exists 0%nat. split; reflexivity.
  - repeat split; cbn; lia.
  - repeat constructor; eexists; reflexivity.
Defined.

Lemma invert_int_involutive (px : list num) :
  Forall is_int px -> map invert_int (map invert_int px) = px.
Proof.
  induction 1 as [|c px [z ->] _ IH]; [reflexivity|].
  cbn [map invert_int]. rewrite IH. f_equal. f_equal. lia.
Qed.

Lemma invert_int_is_int (px : list num) :
  Forall is_int px -> Forall is_int (map invert_int px).
Proof.
  induction 1 as [|c px [z ->] _ IH]; constructor; [eexists; reflexivity | assumption].
Qed.

(** Inversion is an involution: on a well-formed image with integer
    pixels, inverting the inverted image gives a third image with the pixel
    sequence of the first, and the first is still in the store unchanged. *)
Theorem inverted_involution (h : heap) (i : loc) (hh ww : Z) (px : list num) :
  image_at h i hh ww px -> well_formed hh ww px -> Forall is_int px ->
  exists r1 h1 r2 h2,
    inverted i h = (Ok r1, h1) /\
    inverted r1 h1 = (Ok r2, h2) /\
    image_at h2 r2 hh ww px /\
    image_at h2 i hh ww px /\
    r2 <> i /\ r2 <> r1.
Proof.
  intros Himg Hwf Hint.
  pose proof (inverted_int_run h i hh ww px Himg Hwf Hint) as Hrun1.
  set (h1 := out_store h hh ww (map invert_int px)) in *.
  assert (Himg1 : image_at h1 (S (length h)) hh ww (map invert_int px))
    by apply out_store_image.
  assert (Hwf1 : well_formed hh ww (map invert_int px)).
  { destruct Hwf as (Hh & Hw & Hlen). repeat split; try assumption.
    now rewrite length_map. }
  pose proof (inverted_int_run h1 _ hh ww _ Himg1 Hwf1 (invert_int_is_int px Hint))
    as Hrun2.
  rewrite invert_int_involutive in Hrun2 by assumption.
  set (h2 := out_store h1 hh ww px) in *.
  assert (Himg2 : image_at h2 (S (length h1)) hh ww px) by apply out_store_image.
  pose proof (proj1 (inverted_outcome h i hh ww px _ _ Himg Hrun1)) as Hpre1.
  pose proof (proj1 (inverted_outcome h1 _ hh ww _ _ _ Himg1 Hrun2)) as Hpre2.
  assert (Hlt : (i < length h)%nat).
  { destruct Himg as (p & Hi & _). eapply lookup_lt_Some; eauto. }
  assert (Hlt1 : (S (length h) < length h1)%nat).
  { destruct Himg1 as (p1 & Hi1 & _). eapply lookup_lt_Some; eauto. }
  exists (S (length h)), h1, (S (length h1)), h2.
  split; [assumption|]. split; [assumption|]. split; [assumption|].
  split; [|split; lia].
  apply (prefix_image_at h1 h2 i hh ww px Hpre2).
  apply (prefix_image_at h h1 i hh ww px Hpre1 Himg).
Qed.

Lemma inverted_involution_witness :
  exists r1 h1 r2 h2,
    inverted 1%nat [OList (map PInt [18; 69; 142; 216]); ODict (mk_image 1 4 0%nat)]
    = (Ok r1, h1) /\
    inverted r1 h1 = (Ok r2, h2) /\
    image_at h2 r2 1 4 (map PInt [18; 69; 142; 216]) /\
    image_at h2 1%nat 1 4 (map PInt [18; 69; 142; 216]) /\
    r2 <> 1%nat /\ r2 <> r1.
Proof.
  apply (inverted_involution
           [OList (map PInt [18; 69; 142; 216]); ODict (mk_image 1 4 0%nat)] 1%nat 1 4).
  - exists 0%nat. split; reflexivity.
  - repeat split; cbn; lia.
  - repeat constructor; eexists; reflexivity.
Defined.

Lemma py_getitem_raises {A} (l : list A) (i : Z) e :
  py_getitem l i = Raise e -> e = IndexError.
Proof.
  unfold py_getitem. destruct (_ && _); [destruct (l !! _)|]; congruence.
Qed.

Lemma py_getitem_at_length {A} (l : list A) :
  py_getitem l (Z.of_nat (length l)) = Raise IndexError.
Proof.
  unfold py_getitem.
  destruct (Z.ltb_spec (Z.of_nat (length l)) 0); [lia|].
  destruct (Z.ltb_spec (Z.of_nat (length l)) (Z.of_nat (length l))); [lia|].
  now rewrite andb_false_r.
Qed.

(** A dimension mismatch is not checked when the image is built but shows
    in [inverted]: when the pixel list is shorter than [height * width] the
    call raises [IndexError], and it raises nothing else; the input is not
    modified. *)
Theorem inverted_short_pixel_list (h : heap) (i : loc) (hh ww : Z) (px : list num) :
  image_at h i hh ww px ->
  0 <= hh -> 0 <= ww -> Z.of_nat (length px) < hh * ww ->
  fst (inverted i h) = Raise IndexError /\
  image_at (snd (inverted i h)) i hh ww px.
Proof.
  intros Himg Hh Hw Hlen. unfold inverted.
  rewrite (apply_per_pixel_run h i hh ww px _ Himg). cbv zeta. cbn [fst snd].
  split; [|now apply out_store_image_old].
  set (g := fun xy : Z * Z =>
              rbind (py_getitem px (in_bound hh (fst xy) * ww + in_bound ww (snd xy)))
                    (fun c => py_sub (PInt 255) c)).
  destruct (snd (collect g (list_prod (range hh) (range ww)))) as [[]|e] eqn:HC.
  - exfalso.
    assert (Hww : 0 < ww) by nia.
    set (k := Z.of_nat (length px)).
    pose proof (Z.div_mod k ww ltac:(lia)) as Hdm.
    pose proof (Z.mod_pos_bound k ww Hww) as Hmod.
    assert (Hx : 0 <= k / ww < hh).
    { split; [apply Z.div_pos; lia|]. apply Z.div_lt_upper_bound; lia. }
    destruct (collect_ok_lookup g _ _ _ HC (coords_lookup hh ww _ _ Hx Hmod))
      as (v & Hv & _).
    unfold g in Hv. cbn [fst snd] in Hv. rewrite !in_bound_id in Hv by assumption.
    replace (k / ww * ww + k mod ww) with k in Hv by lia.
    unfold k in Hv. rewrite py_getitem_at_length in Hv. discriminate.
  - cbn [status]. f_equal.
    destruct (collect_raise_inv g _ e HC) as ([x y] & _ & Hg).
    unfold g in Hg. cbn [fst snd] in Hg.
    destruct (py_getitem px _) as [c|e'] eqn:Hc; cbn [rbind] in Hg.
    + destruct (py_sub_255_total c) as [v Hv]. congruence.
    + injection Hg as <-. eapply py_getitem_raises; eauto.
Qed.

Lemma inverted_short_pixel_list_witness :
  fst (inverted 1%nat [OList [PInt 5; PInt 6; PInt 7]; ODict (mk_image 2 2 0%nat)])
  = Raise IndexError /\
  image_at (snd (inverted 1%nat [OList [PInt 5; PInt 6; PInt 7]; ODict (mk_image 2 2 0%nat)]))
    1%nat 2 2 [PInt 5; PInt 6; PInt 7].
Proof.
  apply (inverted_short_pixel_list
           [OList [PInt 5; PInt 6; PInt 7]; ODict (mk_image 2 2 0%nat)] 1%nat 2 2);
    [exists 0%nat; split; reflexivity | lia | lia | cbn; lia].
Defined.

(** When the pixel list is longer than [height * width], [inverted] does
    not complain: it returns the inversion of the first [height * width]
    pixels and ignores the rest (integer pixels). *)
Theorem inverted_long_pixel_list (h : heap) (i : loc) (hh ww : Z) (px : list num) :
  image_at h i hh ww px ->
  0 <= hh -> 0 <= ww -> hh * ww <= Z.of_nat (length px) ->
  Forall is_int px ->
  inverted i h
  = (Ok (S (length h)),
     out_store h hh ww (map invert_int (take (Z.to_nat (hh * ww)) px))).
Proof.
  intros Himg Hh Hw Hlen Hint. unfold inverted.
  rewrite (apply_per_pixel_prefix h i hh ww px _ Himg Hh Hw Hlen).
  rewrite collect_invert_int; [reflexivity|].
  now apply Forall_take.
Qed.

Lemma inverted_long_pixel_list_witness :
  inverted 1%nat [OList (map PInt [5; 6; 7]); ODict (mk_image 1 2 0%nat)]
  = (Ok 3%nat,
     out_store [OList (map PInt [5; 6; 7]); ODict (mk_image 1 2 0%nat)] 1 2
       (map invert_int (take (Z.to_nat (1 * 2)) (map PInt [5; 6; 7])))).
Proof.
  apply (inverted_long_pixel_list
           [OList (map PInt [5; 6; 7]); ODict (mk_image 1 2 0%nat)] 1%nat 1 2);
    [exists 0%nat; split; reflexivity | lia | lia | cbn; lia
    | repeat constructor; eexists; reflexivity].
Defined.

(** ** Further properties of [correlate] *)

Lemma rfold_preserves {A B} (P : B -> Prop) (g : A -> B -> result B) xs :
  (forall a acc acc', P acc -> g a acc = Ok acc' -> P acc') ->
  forall acc r, P acc -> rfold g xs acc = Ok r -> P r.
Proof.
  intros Hg. induction xs as [|x xs IH]; intros acc r Hacc; cbn [rfold].
  - now intros [= <-].
  - destruct (g x acc) as [acc'|e] eqn:Hgx; cbn [rbind]; [|discriminate].
    apply IH. eapply Hg; eauto.
Qed.

Lemma py_add_float_is_float s t v : py_add (PFloat s) t = Ok v -> is_float v.
Proof.
  unfold py_add, arith. cbn [to_float rbind].
  destruct (to_float t); cbn [rbind]; [|discriminate].
  intros [= <-]. eexists. reflexivity.
Qed.

Lemma correlate_pixel_is_float hh ww px kernel x y v :
  correlate_pixel hh ww px kernel x y = Ok v -> is_float v.
Proof.
  unfold correlate_pixel. cbv zeta.
  apply (rfold_preserves is_float); [|eexists; reflexivity].
  intros a acc acc' Hacc.
  apply (rfold_preserves is_float); [|assumption].
  intros b acc1 acc2 [s ->].
  destruct (py_getitem kernel _); cbn [rbind]; [|discriminate].
  destruct (py_getitem px _); cbn [rbind]; [|discriminate].
  destruct (py_mul _ _); cbn [rbind]; [|discriminate].
  apply py_add_float_is_float.
Qed.

(** The accumulator of [correlate] starts at [0.0], so every pixel of an
    image it returns is a float, also when the kernel and the input pixels
    are all integers; the returned image is new and has the height and width
    of the input. *)
Theorem correlate_returns_floats (h : heap) (i : loc) (hh ww : Z)
        (px kernel : list num) (r : loc) (h' : heap) :
  image_at h i hh ww px ->
  correlate i kernel h = (Ok r, h') ->
  exists vs, image_at h' r hh ww vs /\ Forall is_float vs /\ r <> i.
Proof.
  intros Himg. rewrite (correlate_run h i hh ww px kernel Himg). cbv zeta.
  intros [= Hst <-].
  destruct (snd (collect _ _)) as [[]|e] in Hst; [|discriminate].
  injection Hst as <-. eexists. split; [apply out_store_image|]. split.
  - apply collect_Forall. intros [x y] v. apply correlate_pixel_is_float.
  - destruct Himg as (p & Hi & _). apply lookup_lt_Some in Hi. lia.
Qed.

Lemma correlate_returns_floats_witness :
  exists vs,
    image_at (snd (correlate 1%nat Kx [OList (map PInt [10; 20; 30; 40]); ODict (mk_image 2 2 0%nat)]))
      3%nat 2 2 vs /\
    Forall is_float vs /\ 3%nat <> 1%nat.
Proof.
  apply (correlate_returns_floats
           [OList (map PInt [10; 20; 30; 40]); ODict (mk_image 2 2 0%nat)] 1%nat 2 2
           (map PInt [10; 20; 30; 40]) Kx).
  - exists 0%nat. split; reflexivity.
  - vm_compute. reflexivity.
Defined.

Lemma collect_const {A B} (f : A -> result B) (c : B) xs :
  (forall a, a ∈ xs -> f a = Ok c) ->
  collect f xs = (replicate (length xs) c, Ok tt).
Proof.
  induction xs as [|x xs IH]; intros Hf; [reflexivity|].
  cbn [collect length replicate]. rewrite (Hf x) by constructor.
  rewrite IH by (intros; apply Hf; now constructor). reflexivity.
Qed.

(** With the empty kernel [correlate] reads no pixel: for any image, even
    one whose pixel list does not match its dimensions, it returns an image
    of [height * width] pixels that are all the float [0.0]. *)
Theorem correlate_empty_kernel (h : heap) (i : loc) (hh ww : Z) (px : list num) :
  image_at h i hh ww px ->
  correlate i [] h
  = (Ok (S (length h)),
     out_store h hh ww
       (replicate (Z.to_nat hh * Z.to_nat ww) (PFloat (S754_zero false)))).
Proof.
  intros Himg. rewrite (correlate_run h i hh ww px [] Himg). cbv zeta.
  rewrite (collect_const _ (PFloat (S754_zero false))) by reflexivity.
  rewrite length_list_prod, !length_range. reflexivity.
Qed.

Lemma correlate_empty_kernel_witness :
  correlate 1%nat [] [OList [PInt 5]; ODict (mk_image 2 3 0%nat)]
  = (Ok 3%nat,
     out_store [OList [PInt 5]; ODict (mk_image 2 3 0%nat)] 2 3
       (replicate (Z.to_nat 2 * Z.to_nat 3) (PFloat (S754_zero false)))).
Proof.
  apply (correlate_empty_kernel [OList [PInt 5]; ODict (mk_image 2 3 0%nat)] 1%nat 2 3 [PInt 5]).
  exists 0%nat. split; reflexivity.
Defined.

(** Whether it returns or raises, [correlate] writes to the two objects it
    allocates only: the store after the call extends the store before it,
    and the input image reads as before. *)
Theorem correlate_does_not_mutate (h : heap) (i : loc) (hh ww : Z)
        (px kernel : list num) :
  image_at h i hh ww px ->
  h `prefix_of` snd (correlate i kernel h) /\
  image_at (snd (correlate i kernel h)) i hh ww px /\
  length (snd (correlate i kernel h)) = S (S (length h)).
Proof.
  intros Himg. rewrite (correlate_run h i hh ww px kernel Himg). cbv zeta.
  cbn [snd]. split; [apply prefix_out_store; reflexivity|].
  split; [now apply out_store_image_old | apply length_out_store].
Qed.

Lemma correlate_does_not_mutate_witness :
  [OList [PInt 5]; ODict (mk_image 1 1 0%nat)]
    `prefix_of` snd (correlate 1%nat Ky [OList [PInt 5]; ODict (mk_image 1 1 0%nat)]) /\
  image_at (snd (correlate 1%nat Ky [OList [PInt 5]; ODict (mk_image 1 1 0%nat)]))
    1%nat 1 1 [PInt 5] /\
  length (snd (correlate 1%nat Ky [OList [PInt 5]; ODict (mk_image 1 1 0%nat)])) = 4%nat.
Proof.
  apply (correlate_does_not_mutate [OList [PInt 5]; ODict (mk_image 1 1 0%nat)] 1%nat 1 1
           [PInt 5] Ky).
  exists 0%nat. split; reflexivity.
Defined.

(** ** Further properties of [round_and_clip_image] *)

(** Quantizing is idempotent: after one call on an image with finite
    pixels, a second call returns the same image and changes nothing. *)
Theorem round_and_clip_image_idempotent (h : heap) (i : loc) (hh ww : Z)
        (px : list num) :
  image_at h i hh ww px ->
  (forall v, v ∈ px -> exists q, num_value v = Some q) ->
  exists h1,
    round_and_clip_image i h = (Ok i, h1) /\
    round_and_clip_image i h1 = (Ok i, h1).
Proof.
  intros (p & Hi & Hp) Hfin.
  destruct (collect_quantize_finite px Hfin) as (zs & Hzs & Hall).
  assert (Hlen : length zs = length px) by (symmetry; eapply Forall2_length; eauto).
  assert (Hne : i <> p) by (intros ->; congruence).
  assert (Hlt : (p < length h)%nat) by (eapply lookup_lt_Some; eauto).
  set (qs := map (fun z => PInt (clamp z)) zs) in *.
  exists (<[p := OList qs]> h). split.
  - rewrite (round_and_clip_image_run h i p hh ww px Hi Hp), Hzs.
    cbn [fst snd status]. unfold qs at 2.
    now rewrite length_map, Hlen, drop_all, app_nil_r.
  - rewrite (round_and_clip_image_run _ i p hh ww qs).
    + rewrite (collect_quantize_valid qs) by (intros v; apply clamped_valid).
      cbn [fst snd status]. rewrite drop_all, app_nil_r.
      now rewrite list_insert_insert_eq.
    + rewrite list_lookup_insert_ne by auto. exact Hi.
    + now apply list_lookup_insert_eq.
Qed.

Lemma round_and_clip_image_idempotent_witness :
  exists h1,
    round_and_clip_image 1%nat [OList [PInt 300; PInt 7]; ODict (mk_image 1 2 0%nat)]
    = (Ok 1%nat, h1) /\
    round_and_clip_image 1%nat h1 = (Ok 1%nat, h1).
Proof.
  apply (round_and_clip_image_idempotent
           [OList [PInt 300; PInt 7]; ODict (mk_image 1 2 0%nat)] 1%nat 1 2
           [PInt 300; PInt 7]).
  - exists 0%nat. split; reflexivity.
  - intros v Hv. apply list_elem_of_In in Hv. simpl in Hv.
    destruct Hv as [<-|[<-|[]]]; eexists; reflexivity.
Defined.

(** When a pixel is not finite the call raises what [round] raises on it
    ([ValueError] on nan, [OverflowError] on an infinity) and leaves the
    image half done: the pixels before it are already quantized in place,
    the offending pixel and those after it are as they were. *)
Theorem round_and_clip_image_stops_midway (h : heap) (i : loc) (hh ww : Z)
        (pre post : list num) (bad : num) (e : exn) :
  image_at h i hh ww (pre ++ bad :: post) ->
  (forall v, v ∈ pre -> exists q, num_value v = Some q) ->
  py_round bad = Raise e ->
  exists qpre,
    fst (round_and_clip_image i h) = Raise e /\
    image_at (snd (round_and_clip_image i h)) i hh ww (qpre ++ bad :: post) /\
    Forall valid_pixel qpre /\ length qpre = length pre.
Proof.
  intros (p & Hi & Hp) Hfin Hbad.
  destruct (collect_quantize_finite pre Hfin) as (zs & Hzs & Hall).
  assert (Hlen : length zs = length pre) by (symmetry; eapply Forall2_length; eauto).
  assert (Hne : i <> p) by (intros ->; congruence).
  assert (Hlt : (p < length h)%nat) by (eapply lookup_lt_Some; eauto).
  exists (map (fun z => PInt (clamp z)) zs).
  rewrite (round_and_clip_image_run h i p hh ww _ Hi Hp). cbv zeta.
  assert (Hqb : quantize bad = Raise e) by (unfold quantize; now rewrite Hbad).
  rewrite collect_app, Hzs. cbn [fst snd collect].
  rewrite Hqb. cbn [fst snd status].
  rewrite app_nil_r, !length_map, Hlen, drop_app_length.
  split; [reflexivity|]. split; [|split].
  - exists p. split.
    + rewrite list_lookup_insert_ne by auto. exact Hi.
    + now apply list_lookup_insert_eq.
  - apply Forall_forall. intros v. apply clamped_valid.
  - reflexivity.
Qed.

Lemma round_and_clip_image_stops_midway_witness :
  exists qpre,
    fst (round_and_clip_image 1%nat
           [OList ([PInt 300] ++ PFloat S754_nan :: [PInt 400]); ODict (mk_image 1 3 0%nat)])
    = Raise ValueError /\
    image_at (snd (round_and_clip_image 1%nat
                     [OList ([PInt 300] ++ PFloat S754_nan :: [PInt 400]);
                      ODict (mk_image 1 3 0%nat)]))
      1%nat 1 3 (qpre ++ PFloat S754_nan :: [PInt 400]) /\
    Forall valid_pixel qpre /\ length qpre = length [PInt 300].
Proof.
  apply (round_and_clip_image_stops_midway
           [OList ([PInt 300] ++ PFloat S754_nan :: [PInt 400]); ODict (mk_image 1 3 0%nat)]
           1%nat 1 3 [PInt 300] [PInt 400] (PFloat S754_nan) ValueError).
  - exists 0%nat. split; reflexivity.
  - intros v Hv. apply list_elem_of_In in Hv. simpl in Hv.
    destruct Hv as [<-|[]]; eexists; reflexivity.
  - reflexivity.
Defined.

(** ** The blur kernel *)

Lemma iter_pos_invariant {A} (P : A -> Prop) (f : A -> A) :
  (forall x, P x -> P (f x)) -> forall n x, P x -> P (SpecFloat.iter_pos f n x).
Proof.
  intros Hf. induction n as [n IH|n IH|]; intros x Hx; cbn; auto.
Qed.

Lemma shr_1_nonneg mrs : 0 <= shr_m mrs -> 0 <= shr_m (shr_1 mrs).
Proof.
  destruct mrs as [m r s]. cbn [shr_m].
  destruct m as [|[q|q|]|[q|q|]]; cbn; lia.
Qed.

Lemma shr_fexp_nonneg m e l :
  0 <= m -> 0 <= shr_m (fst (shr_fexp prec emax m e l)).
Proof.
  intros Hm. unfold shr_fexp, shr.
  assert (H0 : 0 <= shr_m (shr_record_of_loc m l)) by (destruct l as [|[]]; exact Hm).
  destruct (fexp prec emax (Zdigits2 m + e) - e) as [|n|n]; cbn [fst]; try exact H0.
  apply iter_pos_invariant; [apply shr_1_nonneg | exact H0].
Qed.

Lemma round_nearest_even_nonneg m l : 0 <= m -> 0 <= round_nearest_even m l.
Proof.
  intros Hm. unfold round_nearest_even.
  destruct l as [|[]]; try destruct (Z.even m); lia.
Qed.

(** Rounding a non-negative mantissa never produces nan. *)
Lemma binary_round_aux_not_nan sx mx ex lx :
  0 <= mx -> binary_round_aux prec emax sx mx ex lx <> S754_nan.
Proof.
  intros Hm. unfold binary_round_aux.
  pose proof (shr_fexp_nonneg mx ex lx Hm) as H1.
  destruct (shr_fexp prec emax mx ex lx) as [mrs' e']. cbn [fst] in H1.
  pose proof (shr_fexp_nonneg _ e' loc_Exact
                (round_nearest_even_nonneg _ (loc_of_shr_record mrs') H1)) as H2.
  destruct (shr_fexp prec emax _ e' loc_Exact) as [mrs'' e'']. cbn [fst] in H2.
  destruct (shr_m mrs'') as [|m|m]; [discriminate | | lia].
  destruct (e'' <=? emax - prec); discriminate.
Qed.

Lemma SFdiv_positive_not_nan (a b : positive) :
  SFdiv prec emax (S754_finite false a 0) (S754_finite false b 0) <> S754_nan.
Proof.
  unfold SFdiv, SFdiv_core_binary.
  set (m' := match _ - _ - _ with Z.pos _ => _ | 0 => _ | Z.neg _ => _ end).
  assert (Hm' : 0 <= m').
  { unfold m'. destruct (_ - _ - _); [lia | | lia]. apply Z.shiftl_nonneg. lia. }
  pose proof (Z_div_mod m' (Zpos b) ltac:(lia)) as Hdm.
  destruct (Z.div_eucl m' (Zpos b)) as [q r].
  apply binary_round_aux_not_nan. nia.
Qed.

Lemma repeat_replicate {A} (x : A) n : repeat x n = replicate n x.
Proof. induction n as [|n IH]; cbn; [reflexivity | now rewrite IH]. Qed.

Lemma get_blur_kernel_ok (n : Z) (kernel : list num) :
  get_blur_kernel n = Ok kernel ->
  exists w, kernel = replicate (Z.to_nat (n * n)) (PFloat w) /\
            is_finite w = true /\
            SFcompare w (S754_zero false) <> Some Lt /\
            0 < n * n.
Proof.
  unfold get_blur_kernel, py_truediv_int.
  destruct (Z.eqb_spec (n * n) 0); [discriminate|].
  assert (Hpos : 0 < n * n) by nia.
  destruct (n * n) as [|b|b] eqn:Hb; try lia.
  change (int_as_float 1) with (S754_finite false 1 0).
  cbn [int_as_float].
  pose proof (SFdiv_positive_not_nan 1 b) as Hnan.
  destruct (SFdiv prec emax _ _) as [s|s| |s m e] eqn:Hq; cbn [is_infinity rbind];
    try discriminate; try congruence.
  - intros [= <-]. exists (S754_zero s). rewrite repeat_replicate.
    repeat split; try reflexivity. destruct s; cbn; discriminate.
  - intros [= <-]. exists (S754_finite s m e). rewrite repeat_replicate.
    assert (Hs : s = false).
    { unfold SFdiv in Hq. destruct (SFdiv_core_binary _ _ _ _ _ _) as [[mz ez] lz].
      unfold binary_round_aux in Hq.
      destruct (shr_fexp prec emax mz ez lz) as [mrs' e'].
      destruct (shr_fexp prec emax _ e' loc_Exact) as [mrs'' e''].
      destruct (shr_m mrs''); try discriminate.
      destruct (e'' <=? emax - prec); [|discriminate]. now injection Hq as <- _ _. }
    subst s. repeat split; try reflexivity. cbn. discriminate.
Qed.

(** [get_blur_kernel] raises [ZeroDivisionError] exactly for [n = 0]; a
    kernel it returns holds [n * n] copies of one finite, non-negative float
    weight, its side as [correlate] computes it is [|n|], and the sign of
    [n] does not matter. *)
Theorem get_blur_kernel_shape (n : Z) :
  (get_blur_kernel n = Raise ZeroDivisionError <-> n = 0) /\
  (forall kernel, get_blur_kernel n = Ok kernel ->
     exists w, kernel = replicate (Z.to_nat (n * n)) (PFloat w) /\
               is_finite w = true /\
               SFcompare w (S754_zero false) <> Some Lt /\
               Z.sqrt (Z.of_nat (length kernel)) = Z.abs n) /\
  get_blur_kernel (- n) = get_blur_kernel n.
Proof.
  split; [|split].
  - unfold get_blur_kernel, py_truediv_int. split.
    + destruct (Z.eqb_spec (n * n) 0); [intros; nia|].
      destruct (is_infinity _); cbn [rbind]; discriminate.
    + intros ->. reflexivity.
  - intros kernel Hk.
    destruct (get_blur_kernel_ok n kernel Hk) as (w & -> & Hfin & Hsign & Hpos).
    exists w. repeat split; try assumption.
    rewrite length_replicate, Z2Nat.id by lia.
    replace (n * n) with (Z.abs n * Z.abs n) by lia. apply Z.sqrt_square. lia.
  - unfold get_blur_kernel. now replace (- n * - n) with (n * n) by lia.
Qed.

Lemma get_blur_kernel_shape_witness :
  exists w, get_blur_kernel 3 = Ok (replicate (Z.to_nat (3 * 3)) (PFloat w)) /\
            is_finite w = true.
Proof.
  destruct (get_blur_kernel_shape 3) as (_ & H & _).
  destruct (get_blur_kernel 3) as [kernel|e] eqn:E; [|vm_compute in E; discriminate].
  destruct (H kernel eq_refl) as (w & Hk & Hw & _).
  exists w. split; [now rewrite Hk | exact Hw].
Defined.

(** A kernel size of 0 makes [blurred] raise [ZeroDivisionError] before it
    touches the store; [sharpened] raises it too, after allocating its
    result image, and the input is not modified. *)
Theorem blur_size_zero (h : heap) (i : loc) (hh ww : Z) (px : list num)
        (correct : bool) :
  image_at h i hh ww px ->
  blurred i 0 correct h = (Raise ZeroDivisionError, h) /\
  sharpened i 0 h = (Raise ZeroDivisionError, out_store h hh ww []).
Proof.
  intros Himg. split; [reflexivity|].
  pose proof Himg as (p & Hi & Hp). unfold sharpened, bind.
  rewrite (getitem_height_run h i _ Hi), (getitem_width_run h i _ Hi).
  cbn [height width]. rewrite new_image_run.
  rewrite (getitem_pixels_run _ i _ (out_store_old h hh ww [] _ _ Hi)).
  reflexivity.
Qed.

Lemma blur_size_zero_witness :
  blurred 1%nat 0 true [OList [PInt 5]; ODict (mk_image 1 1 0%nat)]
  = (Raise ZeroDivisionError, [OList [PInt 5]; ODict (mk_image 1 1 0%nat)]) /\
  sharpened 1%nat 0 [OList [PInt 5]; ODict (mk_image 1 1 0%nat)]
  = (Raise ZeroDivisionError,
     out_store [OList [PInt 5]; ODict (mk_image 1 1 0%nat)] 1 1 []).
Proof.
  apply (blur_size_zero [OList [PInt 5]; ODict (mk_image 1 1 0%nat)] 1%nat 1 1 [PInt 5]).
  exists 0%nat. split; reflexivity.
Defined.

(** ** The filters as functions of the image value *)

Lemma bind_ok {A B} (m : M A) (k : A -> M B) (h : heap) a h1 :
  m h = (Ok a, h1) -> bind m k h = k a h1.
Proof. intros Hm. unfold bind. now rewrite Hm. Qed.

Lemma bind_raise {A B} (m : M A) (k : A -> M B) (h : heap) e h1 :
  m h = (Raise e, h1) -> bind m k h = (Raise e, h1).
Proof. intros Hm. unfold bind. now rewrite Hm. Qed.

(** Run the first statement, which is known to return. *)
Ltac step H := rewrite (bind_ok _ _ _ _ _ H); cbv beta.

Lemma comprehension_gather {A B} (f : A -> result B) xs :
  comprehension f xs = gather f xs.
Proof.
  unfold gather. induction xs as [|x xs IH]; [reflexivity|].
  cbn [comprehension collect]. destruct (f x) as [y|e]; cbn [rbind]; [|reflexivity].
  rewrite IH. destruct (collect f xs) as [ys [[]|e]]; reflexivity.
Qed.

Lemma gather_ok {A B} (f : A -> result B) xs ys :
  gather f xs = Ok ys <-> collect f xs = (ys, Ok tt).
Proof.
  unfold gather. destruct (collect f xs) as [zs [[]|e]]; cbn; split; congruence.
Qed.

Lemma gather_raise {A B} (f : A -> result B) xs e :
  gather f xs = Raise e <-> snd (collect f xs) = Raise e.
Proof.
  unfold gather. destruct (collect f xs) as [zs [[]|e']]; cbn; split; congruence.
Qed.

Lemma gather_length {A B} (f : A -> result B) xs ys :
  gather f xs = Ok ys -> length ys = length xs.
Proof.
  intros H. apply gather_ok in H. pose proof (collect_ok_length f xs) as HL.
  rewrite H in HL. now apply HL.
Qed.

Lemma status_gather {A B} (f : A -> result B) xs (l : loc) :
  status (snd (collect f xs)) l = rbind (gather f xs) (fun _ => Ok l).
Proof.
  unfold gather. destruct (snd (collect f xs)) as [[]|e]; reflexivity.
Qed.

Lemma correlate_value_run h i hh ww px kernel :
  image_at h i hh ww px ->
  exists vs,
    correlate i kernel h
    = (rbind (correlate_value hh ww px kernel) (fun _ => Ok (S (length h))),
       out_store h hh ww vs) /\
    (forall ys, correlate_value hh ww px kernel = Ok ys -> vs = ys).
Proof.
  intros Himg. rewrite (correlate_run h i hh ww px kernel Himg). cbv zeta.
  eexists. split; [now rewrite status_gather|].
  intros ys Hys. apply gather_ok in Hys. now rewrite Hys.
Qed.

Lemma round_and_clip_image_value (h : heap) (i p : loc) (hh ww : Z) (px : list num) :
  h !! i = Some (ODict (mk_image hh ww p)) ->
  h !! p = Some (OList px) ->
  exists h',
    round_and_clip_image i h = (rbind (gather quantize px) (fun _ => Ok i), h') /\
    (forall qs, gather quantize px = Ok qs -> image_at h' i hh ww qs).
Proof.
  intros Hi Hp. rewrite (round_and_clip_image_run h i p hh ww px Hi Hp). cbv zeta.
  eexists. split; [now rewrite status_gather|].
  intros qs Hqs. pose proof (gather_length _ _ _ Hqs) as Hlen.
  apply gather_ok in Hqs. rewrite Hqs. cbn [fst].
  rewrite drop_ge, app_nil_r by lia.
  assert (Hne : i <> p) by (intros ->; congruence).
  exists p. split.
  - rewrite list_lookup_insert_ne by auto. exact Hi.
  - apply list_lookup_insert_eq. eapply lookup_lt_Some; eauto.
Qed.

Lemma finish_filter_value (h : heap) (res p0 : loc) (hh ww : Z) (new : list num) :
  h !! res = Some (ODict (mk_image hh ww p0)) ->
  exists h',
    (let! nl := alloc (OList new) in
     exec setitem_pixels res nl in
     round_and_clip_image res) h
    = (rbind (gather quantize new) (fun _ => Ok res), h') /\
    (forall qs, gather quantize new = Ok qs -> image_at h' res hh ww qs).
Proof.
  intros Hd.
  assert (Hlt : (res < length h)%nat) by (eapply lookup_lt_Some; eauto).
  unfold bind at 1. unfold alloc. unfold bind at 1.
  unfold setitem_pixels, bind, read_dict, write.
  rewrite lookup_app_l, Hd by assumption. cbn [height width].
  apply (round_and_clip_image_value _ res (length h) hh ww new).
  - apply list_lookup_insert_eq. rewrite length_app. lia.
  - rewrite list_lookup_insert_ne by lia.
    rewrite lookup_app_r, Nat.sub_diag by lia. reflexivity.
Qed.

Lemma inverted_refines h i hh ww px :
  image_at h i hh ww px ->
  exists h',
    inverted i h
    = (rbind (filter_value Inverted hh ww px) (fun _ => Ok (S (length h))), h') /\
    (forall qs, filter_value Inverted hh ww px = Ok qs ->
       image_at h' (S (length h)) hh ww qs).
Proof.
  intros Himg. unfold inverted.
  rewrite (apply_per_pixel_run h i hh ww px _ Himg). cbv zeta.
  eexists. split; [now rewrite status_gather|].
  intros qs Hqs. cbn [filter_value] in Hqs. apply gather_ok in Hqs.
  rewrite Hqs. apply out_store_image.
Qed.

Lemma blurred_refines h i hh ww px n :
  image_at h i hh ww px ->
  exists h',
    blurred i n true h
    = (rbind (filter_value (Blurred n) hh ww px) (fun _ => Ok (S (length h))), h') /\
    (forall qs, filter_value (Blurred n) hh ww px = Ok qs ->
       image_at h' (S (length h)) hh ww qs).
Proof.
  intros Himg. unfold blurred. cbn [filter_value].
  destruct (get_blur_kernel n) as [kernel|e]; cbn [rbind].
  2:{ eexists. split; [reflexivity | discriminate]. }
  step (eq_refl : lift (Ok kernel) h = (Ok kernel, h)).
  destruct (correlate_value_run h i hh ww px kernel Himg) as (vs & Hrun & Hvs).
  destruct (correlate_value hh ww px kernel) as [ys|e]; cbn [rbind] in *.
  2:{ rewrite (bind_raise _ _ _ _ _ Hrun). eexists. split; [reflexivity | discriminate]. }
  step Hrun. rewrite (Hvs ys eq_refl).
  apply (round_and_clip_image_value _ _ _ hh ww ys
           (out_store_dict h hh ww ys) (out_store_list h hh ww ys)).
Qed.

Lemma blurred_false_run h i hh ww px n :
  image_at h i hh ww px ->
  exists vs,
    blurred i n false h
    = (rbind (rbind (get_blur_kernel n) (correlate_value hh ww px))
             (fun _ => Ok (S (length h))),
       match get_blur_kernel n with
       | Ok _ => out_store h hh ww vs
       | Raise _ => h
       end) /\
    (forall kernel ys, get_blur_kernel n = Ok kernel ->
                       correlate_value hh ww px kernel = Ok ys -> vs = ys).
Proof.
  intros Himg. unfold blurred.
  destruct (get_blur_kernel n) as [kernel|e]; cbn [rbind].
  2:{ exists []. split; [reflexivity | discriminate]. }
  step (eq_refl : lift (Ok kernel) h = (Ok kernel, h)).
  destruct (correlate_value_run h i hh ww px kernel Himg) as (vs & Hrun & Hvs).
  exists vs. split.
  - destruct (correlate_value hh ww px kernel) as [ys|e]; cbn [rbind] in *.
    + step Hrun. reflexivity.
    + now rewrite (bind_raise _ _ _ _ _ Hrun).
  - intros k ys [= <-]. apply Hvs.
Qed.

Lemma read_list_run (h : heap) (p : loc) (l : list num) :
  h !! p = Some (OList l) -> read_list p h = (Ok l, h).
Proof. intros Hp. unfold read_list. now rewrite Hp. Qed.

Lemma read_dict_run (h : heap) (i : loc) (d : image_dict) :
  h !! i = Some (ODict d) -> read_dict i h = (Ok d, h).
Proof. intros Hi. unfold read_dict. now rewrite Hi. Qed.

Lemma sharpened_refines h i hh ww px n :
  image_at h i hh ww px ->
  exists h',
    sharpened i n h
    = (rbind (filter_value (Sharpened n) hh ww px) (fun _ => Ok (S (length h))), h') /\
    (forall qs, filter_value (Sharpened n) hh ww px = Ok qs ->
       image_at h' (S (length h)) hh ww qs).
Proof.
  intros Himg. pose proof Himg as (p & Hi & Hp). unfold sharpened.
  step (getitem_height_run h i _ Hi). step (getitem_width_run h i _ Hi).
  cbn [height width]. step (new_image_run h hh ww).
  set (h1 := out_store h hh ww []).
  assert (Hi1 : h1 !! i = Some (ODict (mk_image hh ww p))) by now apply out_store_old.
  assert (Himg1 : image_at h1 i hh ww px) by now apply out_store_image_old.
  step (getitem_pixels_run h1 i _ Hi1). cbn [pixels].
  destruct (blurred_false_run h1 i hh ww px n Himg1) as (vs & Hb & Hvs).
  cbn [filter_value].
  destruct (get_blur_kernel n) as [kernel|e]; cbn [rbind] in *.
  2:{ rewrite (bind_raise _ _ _ _ _ Hb). eexists. split; [reflexivity | discriminate]. }
  destruct (correlate_value hh ww px kernel) as [ys|e] eqn:Hcv; cbn [rbind] in *.
  2:{ rewrite (bind_raise _ _ _ _ _ Hb). eexists. split; [reflexivity | discriminate]. }
  step Hb. rewrite (Hvs kernel ys eq_refl Hcv).
  set (h2 := out_store h1 hh ww ys).
  step (getitem_pixels_run h2 _ _ (out_store_dict h1 hh ww ys)). cbn [pixels].
  step (read_list_run h2 p px (out_store_old h1 hh ww ys _ _
                                 (out_store_old h hh ww [] _ _ Hp))).
  step (read_list_run h2 _ ys (out_store_list h1 hh ww ys)).
  change (comprehension _ (zip px ys)) with (comprehension unsharp (zip px ys)).
  rewrite comprehension_gather.
  destruct (gather unsharp (zip px ys)) as [new|e]; cbn [rbind].
  2:{ rewrite (bind_raise _ _ _ e h2) by reflexivity.
      eexists. split; [reflexivity | discriminate]. }
  step (eq_refl : lift (Ok new) h2 = (Ok new, h2)).
  apply (finish_filter_value h2 (S (length h)) (length h) hh ww new).
  unfold h2. apply out_store_old. unfold h1. apply out_store_dict.
Qed.

Lemma edges_refines h i hh ww px :
  image_at h i hh ww px ->
  exists h',
    edges i h
    = (rbind (filter_value Edges hh ww px) (fun _ => Ok (length h)), h') /\
    (forall qs, filter_value Edges hh ww px = Ok qs ->
       image_at h' (length h) hh ww qs).
Proof.
  intros Himg. pose proof Himg as (p & Hi & Hp). unfold edges.
  step (read_dict_run h i _ Hi).
  step (eq_refl : alloc (ODict (mk_image hh ww p)) h
                  = (Ok (length h), h ++ [ODict (mk_image hh ww p)])).
  set (h1 := h ++ [ODict (mk_image hh ww p)]).
  assert (Hpre1 : h `prefix_of` h1) by (now apply prefix_app_r).
  assert (Hd1 : h1 !! length h = Some (ODict (mk_image hh ww p))).
  { unfold h1. rewrite lookup_app_r, Nat.sub_diag by lia. reflexivity. }
  pose proof (prefix_image_at h h1 i hh ww px Hpre1 Himg) as Himg1.
  cbn [filter_value].
  destruct (correlate_value_run h1 i hh ww px Kx Himg1) as (vx & Hrx & Hvx).
  destruct (correlate_value hh ww px Kx) as [xs|e]; cbn [rbind] in *.
  2:{ rewrite (bind_raise _ _ _ _ _ Hrx). eexists. split; [reflexivity | discriminate]. }
  step Hrx. rewrite (Hvx xs eq_refl). clear Hrx Hvx vx.
  set (h2 := out_store h1 hh ww xs).
  assert (Himg2 : image_at h2 i hh ww px) by now apply out_store_image_old.
  destruct (correlate_value_run h2 i hh ww px Ky Himg2) as (vy & Hry & Hvy).
  destruct (correlate_value hh ww px Ky) as [ys|e]; cbn [rbind] in *.
  2:{ rewrite (bind_raise _ _ _ _ _ Hry). eexists. split; [reflexivity | discriminate]. }
  step Hry. rewrite (Hvy ys eq_refl). clear Hry Hvy vy.
  set (h3 := out_store h2 hh ww ys).
  step (getitem_pixels_run h3 _ _
          (out_store_old h2 hh ww ys _ _ (out_store_dict h1 hh ww xs))).
  cbn [pixels].
  step (getitem_pixels_run h3 _ _ (out_store_dict h2 hh ww ys)). cbn [pixels].
  step (read_list_run h3 _ xs (out_store_old h2 hh ww ys _ _ (out_store_list h1 hh ww xs))).
  step (read_list_run h3 _ ys (out_store_list h2 hh ww ys)).
  change (comprehension _ (zip xs ys)) with (comprehension magnitude (zip xs ys)).
  rewrite comprehension_gather.
  destruct (gather magnitude (zip xs ys)) as [new|e]; cbn [rbind].
  2:{ rewrite (bind_raise _ _ _ e h3) by reflexivity.
      eexists. split; [reflexivity | discriminate]. }
  step (eq_refl : lift (Ok new) h3 = (Ok new, h3)).
  apply (finish_filter_value h3 (length h) p hh ww new).
  unfold h3, h2. now do 2 apply out_store_old.
Qed.



Lemma run_filter_value (F : filter) (h : heap) (i : loc) (hh ww : Z) (px : list num) :
  image_at h i hh ww px ->
  exists h',
    run_filter F i h
    = (rbind (filter_value F hh ww px) (fun _ => Ok (result_loc F h)), h') /\
    (forall qs, filter_value F hh ww px = Ok qs ->
       image_at h' (result_loc F h) hh ww qs).
Proof.
  intros Himg. destruct F as [|n|n|]; cbn [run_filter result_loc].
  - now apply inverted_refines.
  - now apply blurred_refines.
  - now apply sharpened_refines.
  - now apply edges_refines.
Qed.

Lemma filter_value_run (F : filter) (h : heap) (i : loc) (hh ww : Z) (px qs : list num) :
  image_at h i hh ww px ->
  filter_value F hh ww px = Ok qs ->
  exists h', run_filter F i h = (Ok (result_loc F h), h') /\
             image_at h' (result_loc F h) hh ww qs.
Proof.
  intros Himg Hv. destruct (run_filter_value F h i hh ww px Himg) as (h' & Hrun & Himg').
  exists h'. split; [|now apply Himg']. rewrite Hrun, Hv. reflexivity.
Qed.

Lemma length_coords hh ww (px : list num) :
  well_formed hh ww px -> length (list_prod (range hh) (range ww)) = length px.
Proof.
  intros (Hh & Hw & Hlen). rewrite length_list_prod, !length_range. nia.
Qed.

Lemma correlate_value_length hh ww px kernel ys :
  well_formed hh ww px -> correlate_value hh ww px kernel = Ok ys ->
  length ys = length px.
Proof.
  intros Hwf Hys. apply gather_length in Hys. now rewrite Hys, (length_coords hh ww px).
Qed.

Lemma filter_value_length (F : filter) hh ww px qs :
  well_formed hh ww px -> filter_value F hh ww px = Ok qs -> length qs = length px.
Proof.
  intros Hwf. destruct F as [|n|n|]; cbn [filter_value].
  - intros Hq. apply gather_length in Hq. now rewrite Hq, (length_coords hh ww px).
  - destruct (get_blur_kernel n) as [kernel|e]; cbn [rbind]; [|discriminate].
    destruct (correlate_value hh ww px kernel) as [ys|e] eqn:Hys; cbn [rbind]; [|discriminate].
    intros Hq. apply gather_length in Hq.
    now rewrite Hq, (correlate_value_length hh ww px kernel ys).
  - destruct (get_blur_kernel n) as [kernel|e]; cbn [rbind]; [|discriminate].
    destruct (correlate_value hh ww px kernel) as [ys|e] eqn:Hys; cbn [rbind]; [|discriminate].
    destruct (gather unsharp (zip px ys)) as [vs|e] eqn:Hvs; cbn [rbind]; [|discriminate].
    intros Hq. apply gather_length in Hq, Hvs.
    rewrite Hq, Hvs, length_zip_with, (correlate_value_length hh ww px kernel ys) by assumption.
    lia.
  - destruct (correlate_value hh ww px Kx) as [xs|e] eqn:Hxs; cbn [rbind]; [|discriminate].
    destruct (correlate_value hh ww px Ky) as [ys|e] eqn:Hys; cbn [rbind]; [|discriminate].
    destruct (gather magnitude (zip xs ys)) as [vs|e] eqn:Hvs; cbn [rbind]; [|discriminate].
    intros Hq. apply gather_length in Hq, Hvs.
    rewrite Hq, Hvs, length_zip_with.
    rewrite (correlate_value_length hh ww px Kx xs), (correlate_value_length hh ww px Ky ys)
      by assumption.
    lia.
Qed.

(** The filters keep the data-model invariant: on a well-formed image, the
    image a public filter returns has the same height and width and a pixel
    list of [height * width] elements. *)
Theorem filters_keep_well_formed (F : filter) (h : heap) (i : loc) (hh ww : Z)
        (px : list num) (r : loc) (h' : heap) :
  image_at h i hh ww px ->
  well_formed hh ww px ->
  run_filter F i h = (Ok r, h') ->
  exists qs, image_at h' r hh ww qs /\ well_formed hh ww qs.
Proof.
  intros Himg Hwf Hrun.
  destruct (run_filter_value F h i hh ww px Himg) as (h1 & Hrun1 & Himg1).
  rewrite Hrun in Hrun1.
  destruct (filter_value F hh ww px) as [qs|e] eqn:Hv; cbn [rbind] in Hrun1;
    [|discriminate].
  injection Hrun1 as -> ->. exists qs. split; [now apply Himg1|].
  pose proof (filter_value_length F hh ww px qs Hwf Hv) as Hlen.
  destruct Hwf as (Hh & Hw & Hpx). repeat split; try assumption. now rewrite Hlen.
Qed.

Lemma filters_keep_well_formed_witness :
  exists qs,
    image_at (snd (run_filter Edges 1%nat
                     [OList (map PInt [10; 20; 30; 40]); ODict (mk_image 2 2 0%nat)]))
      2%nat 2 2 qs /\
    well_formed 2 2 qs.
Proof.
  apply (filters_keep_well_formed Edges
           [OList (map PInt [10; 20; 30; 40]); ODict (mk_image 2 2 0%nat)]
           1%nat 2 2 (map PInt [10; 20; 30; 40]) 2%nat).
  - exists 0%nat. split; reflexivity.
  - repeat split; cbn; lia.
  - vm_compute. reflexivity.
Defined.

(** ** Constant images and the identity kernel *)

Lemma kernel_index_ok (kernel : list num) (a b : Z) :
  let ks := Z.sqrt (Z.of_nat (length kernel)) in
  0 <= a < ks -> 0 <= b < ks ->
  exists k, py_getitem kernel (a * ks + b) = Ok k /\ k ∈ kernel.
Proof.
  intros ks Ha Hb.
  assert (Hks : ks * ks <= Z.of_nat (length kernel)).
  { destruct (Z.sqrt_spec (Z.of_nat (length kernel))); unfold ks; lia. }
  destruct (py_getitem_lookup kernel (a * ks + b)) as (k & Hk & Hget); [nia|].
  exists k. split; [assumption|]. eapply list_elem_of_lookup_2; eauto.
Qed.

Lemma read_constant hh ww (n : nat) (c : num) row col :
  1 <= hh -> 1 <= ww -> Z.of_nat n = hh * ww ->
  py_getitem (replicate n c) (in_bound hh row * ww + in_bound ww col) = Ok c.
Proof.
  intros Hh Hw Hn.
  pose proof (in_bound_range hh row Hh). pose proof (in_bound_range ww col Hw).
  destruct (py_getitem_lookup (replicate n c) (in_bound hh row * ww + in_bound ww col))
    as (v & Hv & ->); [rewrite length_replicate; nia|].
  apply lookup_replicate in Hv as [-> _]. reflexivity.
Qed.

(** On a constant image every pixel [correlate] computes is the one it
    computes on the one-pixel image of the same value. *)
Lemma correlate_pixel_constant hh ww (n : nat) (c : num) kernel x y :
  1 <= hh -> 1 <= ww -> Z.of_nat n = hh * ww ->
  correlate_pixel hh ww (replicate n c) kernel x y
  = correlate_pixel 1 1 [c] kernel 0 0.
Proof.
  intros Hh Hw Hn. unfold correlate_pixel. cbv zeta.
  apply rfold_ext. intros a _ acc. apply rfold_ext. intros b _ acc'.
  destruct (py_getitem kernel _) as [k|e]; cbn [rbind]; [|reflexivity].
  rewrite (read_constant hh ww n c) by assumption.
  change [c] with (replicate 1 c).
  rewrite (read_constant 1 1 1 c) by lia. reflexivity.
Qed.

Lemma correlate_value_constant hh ww (n : nat) (c v : num) kernel :
  well_formed hh ww (replicate n c) ->
  correlate_pixel 1 1 [c] kernel 0 0 = Ok v ->
  correlate_value hh ww (replicate n c) kernel = Ok (replicate n v).
Proof.
  intros Hwf Hv. pose proof Hwf as (Hh & Hw & Hlen).
  rewrite length_replicate in Hlen.
  unfold correlate_value. apply gather_ok.
  rewrite (collect_const _ v).
  - now rewrite (length_coords hh ww _ Hwf), length_replicate.
  - intros [x y] Hxy. apply elem_of_coords in Hxy. cbn [fst snd] in *.
    rewrite correlate_pixel_constant by lia. exact Hv.
Qed.

Lemma gather_replicate {A B} (f : A -> result B) (n : nat) (a : A) (b : B) :
  f a = Ok b -> gather f (replicate n a) = Ok (replicate n b).
Proof.
  intros Hf. apply gather_ok. rewrite (collect_const f b).
  - now rewrite length_replicate.
  - intros x Hx. apply elem_of_replicate in Hx as [-> _]. exact Hf.
Qed.

Lemma black_pixel_response (kernel : list num) :
  Forall (fun k => finite_num k = true) kernel ->
  correlate_pixel 1 1 [PInt 0] kernel 0 0 = Ok (PFloat (S754_zero false)).
Proof.
  intros Hfin. unfold correlate_pixel. cbv zeta.
  set (ks := Z.sqrt (Z.of_nat (length kernel))).
  destruct (rfold_invariant (fun acc => acc = PFloat (S754_zero false))
    (fun h newpixel =>
       rfold (fun w newpixel0 =>
         rbind (py_getitem kernel (h * ks + w)) (fun k =>
         rbind (py_getitem [PInt 0]
                  (in_bound 1 (0 - (ks - 1) `quot` 2 + h) * 1
                   + in_bound 1 (0 - (ks - 1) `quot` 2 + w))) (fun c =>
         rbind (py_mul k c) (fun t => py_add newpixel0 t))))
         (range ks) newpixel)
    (range ks)) with (acc := PFloat (S754_zero false)) as (r & Hr & ->); auto.
  intros a Ha acc Hacc. apply elem_of_range in Ha.
  apply rfold_invariant; [|assumption].
  intros b Hb acc' ->. apply elem_of_range in Hb.
  destruct (kernel_index_ok kernel a b Ha Hb) as (k & Hget & Hk).
  change (Z.sqrt (Z.of_nat (length kernel))) with ks in Hget.
  rewrite Hget. cbn [rbind].
  change [PInt 0] with (replicate 1 (PInt 0)).
  rewrite (read_constant 1 1 1 (PInt 0)) by lia. cbn [rbind].
  rewrite Forall_forall in Hfin. specialize (Hfin k Hk).
  unfold py_mul, py_add, arith.
  destruct k as [z|[s|s| |s m e]]; cbn [finite_num is_finite] in Hfin;
    try discriminate; cbn [to_float rbind].
  - rewrite Z.mul_0_r, float_of_int_0. cbn [rbind]. eauto.
  - rewrite float_of_int_0. cbn [rbind]. destruct s; eauto.
  - rewrite float_of_int_0. cbn [rbind]. destruct s; eauto.
Qed.

Lemma constant_list (px : list num) (c : num) :
  Forall (eq c) px -> px = replicate (length px) c.
Proof.
  induction 1 as [|x px <- _ IH]; [reflexivity|]. cbn. now rewrite <- IH.
Qed.

(** Black stays black: on a well-formed image whose pixels are all the
    integer 0, [blurred] with any kernel size for which the kernel exists
    returns a new image with the same all-zero pixel list. *)
Theorem blurred_black_image (h : heap) (i : loc) (hh ww : Z) (px : list num)
        (n : Z) (kernel : list num) :
  image_at h i hh ww px ->
  well_formed hh ww px ->
  Forall (eq (PInt 0)) px ->
  get_blur_kernel n = Ok kernel ->
  exists h',
    blurred i n true h = (Ok (S (length h)), h') /\
    image_at h' (S (length h)) hh ww px.
Proof.
  intros Himg Hwf Hzero Hk.
  apply (filter_value_run (Blurred n) h i hh ww px px Himg).
  cbn [filter_value]. rewrite Hk. cbn [rbind].
  rewrite (constant_list px (PInt 0) Hzero) in Hwf |- *.
  rewrite (correlate_value_constant hh ww _ (PInt 0) (PFloat (S754_zero false)) kernel Hwf).
  - cbn [rbind]. now apply gather_replicate.
  - apply black_pixel_response.
    destruct (get_blur_kernel_ok n kernel Hk) as (w & -> & Hw & _).
    apply Forall_forall. intros k Hin.
    apply elem_of_replicate in Hin as [-> _]. exact Hw.
Qed.

Lemma blurred_black_image_witness :
  exists h',
    blurred 1%nat 5 true [OList (replicate 30 (PInt 0)); ODict (mk_image 5 6 0%nat)]
    = (Ok 3%nat, h') /\
    image_at h' 3%nat 5 6 (replicate 30 (PInt 0)).
Proof.
  destruct (get_blur_kernel 5) as [kernel|e] eqn:E; [|vm_compute in E; discriminate].
  apply (blurred_black_image
           [OList (replicate 30 (PInt 0)); ODict (mk_image 5 6 0%nat)] 1%nat 5 6
           (replicate 30 (PInt 0)) 5 kernel).
  - exists 0%nat. split; reflexivity.
  - repeat split; cbn; lia.
  - repeat constructor.
  - exact E.
Defined.

Lemma flat_check_all : forallb flat_check (range 256) = true.
Proof. vm_compute. reflexivity. Qed.

Lemma flat_response (v : Z) :
  0 <= v <= 255 ->
  exists a b m,
    correlate_pixel 1 1 [PInt v] Kx 0 0 = Ok a /\
    correlate_pixel 1 1 [PInt v] Ky 0 0 = Ok b /\
    magnitude (a, b) = Ok m /\
    quantize m = Ok (PInt 0).
Proof.
  intros Hv. pose proof flat_check_all as Hall. rewrite forallb_forall in Hall.
  specialize (Hall v ltac:(apply list_elem_of_In, elem_of_range; lia)).
  unfold flat_check in Hall.
  destruct (correlate_pixel 1 1 [PInt v] Kx 0 0) as [a|]; [|discriminate].
  destruct (correlate_pixel 1 1 [PInt v] Ky 0 0) as [b|]; [|discriminate].
  destruct (magnitude (a, b)) as [m|] eqn:Hm; cbn [rbind] in Hall; [|discriminate].
  destruct (quantize m) as [[[| |]|]|] eqn:Hq; try discriminate.
  exists a, b, m. repeat split; assumption.
Qed.

(** No edges in a flat image: on a well-formed image whose pixels are all
    the same integer of [0, 255], [edges] returns the all-zero image of the
    same dimensions. *)
Theorem edges_flat_image (h : heap) (i : loc) (hh ww : Z) (px : list num) (v : Z) :
  image_at h i hh ww px ->
  well_formed hh ww px ->
  Forall (eq (PInt v)) px ->
  0 <= v <= 255 ->
  exists h',
    edges i h = (Ok (length h), h') /\
    image_at h' (length h) hh ww (replicate (length px) (PInt 0)).
Proof.
  intros Himg Hwf Hflat Hv.
  apply (filter_value_run Edges h i hh ww px _ Himg).
  destruct (flat_response v Hv) as (a & b & m & Ha & Hb & Hm & Hq).
  cbn [filter_value].
  rewrite (constant_list px (PInt v) Hflat) in Hwf |- *.
  rewrite length_replicate.
  rewrite (correlate_value_constant hh ww _ (PInt v) a Kx Hwf Ha).
  rewrite (correlate_value_constant hh ww _ (PInt v) b Ky Hwf Hb).
  cbn [rbind]. rewrite zip_with_replicate.
  rewrite (gather_replicate magnitude _ (a, b) m Hm). cbn [rbind].
  now apply gather_replicate.
Qed.

Lemma edges_flat_image_witness :
  exists h',
    edges 1%nat [OList (replicate 6 (PInt 200)); ODict (mk_image 2 3 0%nat)]
    = (Ok 2%nat, h') /\
    image_at h' 2%nat 2 3 (replicate (length (replicate 6 (PInt 200))) (PInt 0)).
Proof.
  apply (edges_flat_image
           [OList (replicate 6 (PInt 200)); ODict (mk_image 2 3 0%nat)] 1%nat 2 3
           (replicate 6 (PInt 200)) 200).
  - exists 0%nat. split; reflexivity.
  - repeat split; cbn; lia.
  - repeat constructor.
  - lia.
Defined.

Lemma sharpen_1_check_all : forallb sharpen_1_check (range 256) = true.
Proof. vm_compute. reflexivity. Qed.

Lemma sharpen_1_pixel c :
  valid_pixel c ->
  exists y t, blur_1 c = Ok y /\ unsharp (c, y) = Ok t /\ quantize t = Ok c.
Proof.
  intros (z & -> & Hz).
  pose proof sharpen_1_check_all as Hall. rewrite forallb_forall in Hall.
  specialize (Hall z ltac:(apply list_elem_of_In, elem_of_range; lia)).
  unfold sharpen_1_check in Hall.
  destruct (blur_1 (PInt z)) as [y|]; [|discriminate].
  destruct (unsharp (PInt z, y)) as [t|] eqn:Ht; cbn [rbind] in Hall; [|discriminate].
  destruct (quantize t) as [[r|]|] eqn:Hq; try discriminate.
  apply Z.eqb_eq in Hall as ->. eauto.
Qed.

Lemma collect_sharpen_1 (px : list num) :
  Forall valid_pixel px ->
  exists ys ts,
    collect blur_1 px = (ys, Ok tt) /\
    collect unsharp (zip px ys) = (ts, Ok tt) /\
    collect quantize ts = (px, Ok tt).
Proof.
  induction 1 as [|c px Hc _ (ys & ts & Hys & Hts & Hq)].
  - exists [], []. repeat split.
  - destruct (sharpen_1_pixel c Hc) as (y & t & Hy & Ht & Hqt).
    exists (y :: ys), (t :: ts). cbn [collect zip_with].
    rewrite Hy, Hys, Ht, Hts, Hqt, Hq. repeat split.
Qed.

(** Sharpening with kernel size 1 changes nothing: on a well-formed image
    with pixels in [0, 255], [sharpened(I, 1)] returns a new image with the
    pixel sequence of [I]. *)
Theorem sharpened_1_is_identity (h : heap) (i : loc) (hh ww : Z) (px : list num) :
  image_at h i hh ww px ->
  well_formed hh ww px ->
  Forall valid_pixel px ->
  exists h',
    sharpened i 1 h = (Ok (S (length h)), h') /\
    image_at h' (S (length h)) hh ww px.
Proof.
  intros Himg Hwf Hpx.
  apply (filter_value_run (Sharpened 1) h i hh ww px px Himg).
  destruct (collect_sharpen_1 px Hpx) as (ys & ts & Hys & Hts & Hq).
  cbn [filter_value]. rewrite get_blur_kernel_1. cbn [rbind].
  assert (Hcv : correlate_value hh ww px [PFloat float_one] = Ok ys).
  { unfold correlate_value. apply gather_ok.
    rewrite (collect_ext _
               (fun xy => rbind (py_getitem px (in_bound hh (fst xy) * ww
                                                + in_bound ww (snd xy))) blur_1))
      by (intros [x y]; apply correlate_pixel_1).
    now rewrite (collect_rbind _ _ _ px (collect_read_all hh ww px Hwf)). }
  rewrite Hcv. cbn [rbind].
  apply gather_ok in Hts. rewrite Hts. cbn [rbind]. now apply gather_ok.
Qed.

Lemma sharpened_1_is_identity_witness :
  exists h',
    sharpened 1%nat 1 [OList (map PInt [0; 255; 30; 40]); ODict (mk_image 2 2 0%nat)]
    = (Ok 3%nat, h') /\
    image_at h' 3%nat 2 2 (map PInt [0; 255; 30; 40]).
Proof.
  apply (sharpened_1_is_identity
           [OList (map PInt [0; 255; 30; 40]); ODict (mk_image 2 2 0%nat)] 1%nat 2 2).
  - exists 0%nat. split; reflexivity.
  - repeat split; cbn; lia.
  - repeat constructor; eexists; (split; [reflexivity | lia]).
Defined.

(** ** [set_pixel] and shared pixel lists *)

(** [set_pixel] appends to the list object itself: it never raises on an
    image, leaves height and width as they are (so the list is one longer
    than before, whatever the dimensions say), and a second dictionary that
    shares the pixel list, such as a shallow copy, sees the new pixel too. *)
Theorem set_pixel_appends_in_place (h : heap) (i j p : loc) (hh ww hh' ww' : Z)
        (px : list num) (c : num) :
  h !! i = Some (ODict (mk_image hh ww p)) ->
  h !! j = Some (ODict (mk_image hh' ww' p)) ->
  h !! p = Some (OList px) ->
  set_pixel i c h = (Ok tt, <[p := OList (px ++ [c])]> h) /\
  image_at (<[p := OList (px ++ [c])]> h) i hh ww (px ++ [c]) /\
  image_at (<[p := OList (px ++ [c])]> h) j hh' ww' (px ++ [c]).
Proof.
  intros Hi Hj Hp.
  assert (Hlt : (p < length h)%nat) by (eapply lookup_lt_Some; eauto).
  assert (Hip : i <> p) by (intros ->; congruence).
  assert (Hjp : j <> p) by (intros ->; congruence).
  split; [|split].
  - unfold set_pixel, bind. rewrite (getitem_pixels_run h i _ Hi). cbn [pixels].
    unfold list_append, bind, read_list, write. now rewrite Hp.
  - exists p. split; [now rewrite list_lookup_insert_ne | now apply list_lookup_insert_eq].
  - exists p. split; [now rewrite list_lookup_insert_ne | now apply list_lookup_insert_eq].
Qed.

Lemma set_pixel_appends_in_place_witness :
  set_pixel 1%nat (PInt 9) [OList [PInt 5]; ODict (mk_image 1 1 0%nat); ODict (mk_image 1 1 0%nat)]
  = (Ok tt, <[0%nat := OList ([PInt 5] ++ [PInt 9])]>
              [OList [PInt 5]; ODict (mk_image 1 1 0%nat); ODict (mk_image 1 1 0%nat)]) /\
  image_at (<[0%nat := OList ([PInt 5] ++ [PInt 9])]>
              [OList [PInt 5]; ODict (mk_image 1 1 0%nat); ODict (mk_image 1 1 0%nat)])
    1%nat 1 1 ([PInt 5] ++ [PInt 9]) /\
  image_at (<[0%nat := OList ([PInt 5] ++ [PInt 9])]>
              [OList [PInt 5]; ODict (mk_image 1 1 0%nat); ODict (mk_image 1 1 0%nat)])
    2%nat 1 1 ([PInt 5] ++ [PInt 9]).
Proof.
  apply (set_pixel_appends_in_place
           [OList [PInt 5]; ODict (mk_image 1 1 0%nat); ODict (mk_image 1 1 0%nat)]
           1%nat 2%nat 0%nat 1 1 1 1 [PInt 5] (PInt 9)); reflexivity.
Defined.
